(** * SerialScaleServer: the scale protocol handler ([scale.py])

    A shallow embedding of [SerialScaleReader]: the port configuration
    store ([get_settings], [update_settings], [update_and_get_settings])
    and the scale transaction engine ([read_weight]).

    Python values are modelled as follows.
    - [str] is [string]; [bytes] is [list byte]; [int] is [Z];
      [float] is the kernel's binary64 [float], the type CPython uses.
    - A [dict] whose key order is observable (the option tables, whose keys
      are joined into error messages) is an association list; the [dict]s
      built by the methods are [gmap]s keyed by [string].
    - [**kwargs] is a [gmap string string]: the values handed over by the
      HTTP layer ([request.form] / [request.args]) are always [str], and
      for a [str] "falsy" means "empty".
    - The builtins [int], [float], [str.lower], and pyserial's port
      enumeration are not part of the repository: the configuration store
      is stated over arbitrary ones (the class [Runtime]).  Reference
      versions for plain ASCII input are given to run examples. *)

From Stdlib Require Import ZArith List Lia.
From Stdlib Require Import Init.Byte.
From Stdlib Require Strings.Byte Strings.String Strings.Ascii.
Import (notations) Strings.Ascii.
From Stdlib Require Import PrimFloat SpecFloat FloatOps Uint63.
From stdpp Require Import gmap strings.
Import ListNotations.

Local Open Scope Z_scope.

(** ** Python values that occur in the settings dictionaries *)

Inductive pyval :=
| PyStr (s : string)
| PyInt (z : Z)
| PyFloat (f : float).

(** Truthiness of a [str]: only the empty string is falsy. *)
Definition truthy (s : string) : bool :=
  match s with
  | EmptyString => false
  | String _ _ => true
  end.

(** Exact comparison of an [int] with a [float], as [==] does it. *)
Definition int_float_eqb (z : Z) (f : float) : bool :=
  match Prim2SF f with
  | S754_zero _ => z =? 0
  | S754_finite s m e =>
      let v := if s then Z.neg m else Z.pos m in
      if 0 <=? e then z =? v * 2 ^ e
      else (v mod 2 ^ (- e) =? 0) && (z =? v / 2 ^ (- e))
  | S754_infinity _ => false
  | S754_nan => false
  end.

(** [a == b] on the values above (a [str] never equals a number). *)
Definition py_eqb (a b : pyval) : bool :=
  match a, b with
  | PyStr s, PyStr t => String.eqb s t
  | PyInt x, PyInt y => x =? y
  | PyFloat x, PyFloat y => PrimFloat.eqb x y
  | PyInt x, PyFloat y => int_float_eqb x y
  | PyFloat x, PyInt y => int_float_eqb y x
  | _, _ => false
  end.

(** Lookup in a [dict] literal kept in insertion order. *)
Fixpoint dict_get {K V : Type} (eqb : K -> K -> bool) (k : K)
    (d : list (K * V)) : option V :=
  match d with
  | [] => None
  | (k', v) :: d' => if eqb k k' then Some v else dict_get eqb k d'
  end.

(** [sep.join(parts)] *)
Fixpoint join (sep : string) (parts : list string) : string :=
  match parts with
  | [] => EmptyString
  | [p] => p
  | p :: ps => p +:+ sep +:+ join sep ps
  end.

(** ** pyserial constants ([serial.serialutil]) *)

Definition PARITY_NONE : string := "N".
Definition PARITY_EVEN : string := "E".
Definition PARITY_ODD : string := "O".
Definition PARITY_MARK : string := "M".
Definition PARITY_SPACE : string := "S".

Definition STOPBITS_ONE : pyval := PyInt 1.
Definition STOPBITS_ONE_POINT_FIVE : pyval := PyFloat 1.5%float.
Definition STOPBITS_TWO : pyval := PyInt 2.

Definition FIVEBITS : Z := 5.
Definition SIXBITS : Z := 6.
Definition SEVENBITS : Z := 7.
Definition EIGHTBITS : Z := 8.

(** ** Module-level option tables *)

Definition PARITY_OPTIONS : list (string * string) :=
  [ ("none", PARITY_NONE);
    ("odd", PARITY_ODD);
    ("even", PARITY_EVEN);
    ("mark", PARITY_MARK);
    ("space", PARITY_SPACE) ].

Definition STOP_BITS_OPTIONS : list (pyval * pyval) :=
  [ (PyInt 1, STOPBITS_ONE);
    (PyFloat 1.5%float, STOPBITS_ONE_POINT_FIVE);
    (PyInt 2, STOPBITS_TWO) ].

Definition BYTE_SIZE_OPTIONS : list (Z * Z) :=
  [ (5, FIVEBITS);
    (6, SIXBITS);
    (7, SEVENBITS);
    (8, EIGHTBITS) ].

(** ** The reader object *)

(** The attributes of [serial.Serial()] that the reader touches. *)
Record Serial := {
  port : string;
  baud_rate : Z;
  parity : string;
  stop_bits : pyval;
  bytesize : Z
}.

Record SerialScaleReader := {
  wait_time : float;
  wait_interval_seconds : float;
  max_wait_time_seconds : float;
  read_weight_command : list byte;
  end_of_weight_char : list byte;
  serial_reader : Serial
}.

(** [__init__], with every keyword argument explicit. *)
Definition init (wait_interval_seconds0 max_wait_time_seconds0 : float)
    (read_weight_command0 end_of_weight_char0 : list byte)
    (port0 : string) (baud_rate0 : Z) (parity0 : string)
    (stop_bits0 : pyval) (byte_size0 : Z) : SerialScaleReader :=
  {| wait_time := 0%float;
     wait_interval_seconds := wait_interval_seconds0;
     max_wait_time_seconds := max_wait_time_seconds0;
     read_weight_command := read_weight_command0;
     end_of_weight_char := end_of_weight_char0;
     serial_reader :=
       {| port := port0;
          baud_rate := baud_rate0;
          parity := parity0;
          stop_bits := stop_bits0;
          bytesize := byte_size0 |} |}.

(** [SerialScaleReader(port=p)]: the defaults of [__init__]
    ([b'W\r'] is [x57 x0d], [b'\x03'] is [x03]). *)
Definition default_reader (p : string) : SerialScaleReader :=
  init 0.25%float 1.5%float [x57; x0d] [x03] p 9600 PARITY_EVEN STOPBITS_ONE SEVENBITS.

Definition set_serial_reader (sr : Serial) (self : SerialScaleReader)
    : SerialScaleReader :=
  {| wait_time := wait_time self;
     wait_interval_seconds := wait_interval_seconds self;
     max_wait_time_seconds := max_wait_time_seconds self;
     read_weight_command := read_weight_command self;
     end_of_weight_char := end_of_weight_char self;
     serial_reader := sr |}.

Definition set_wait_time (w : float) (self : SerialScaleReader)
    : SerialScaleReader :=
  {| wait_time := w;
     wait_interval_seconds := wait_interval_seconds self;
     max_wait_time_seconds := max_wait_time_seconds self;
     read_weight_command := read_weight_command self;
     end_of_weight_char := end_of_weight_char self;
     serial_reader := serial_reader self |}.

Definition set_port (v : string) (sr : Serial) : Serial :=
  {| port := v; baud_rate := baud_rate sr; parity := parity sr;
     stop_bits := stop_bits sr; bytesize := bytesize sr |}.
Definition set_baud_rate (v : Z) (sr : Serial) : Serial :=
  {| port := port sr; baud_rate := v; parity := parity sr;
     stop_bits := stop_bits sr; bytesize := bytesize sr |}.
Definition set_parity (v : string) (sr : Serial) : Serial :=
  {| port := port sr; baud_rate := baud_rate sr; parity := v;
     stop_bits := stop_bits sr; bytesize := bytesize sr |}.
Definition set_stop_bits (v : pyval) (sr : Serial) : Serial :=
  {| port := port sr; baud_rate := baud_rate sr; parity := parity sr;
     stop_bits := v; bytesize := bytesize sr |}.
Definition set_bytesize (v : Z) (sr : Serial) : Serial :=
  {| port := port sr; baud_rate := baud_rate sr; parity := parity sr;
     stop_bits := stop_bits sr; bytesize := v |}.

(** ** Port configuration store *)

(** One entry of the dictionary returned by [update_settings]. *)
Record SettingError := {
  given_value : pyval;
  error : string
}.

(** An entry of [list_ports.comports()]. *)
Record ListPortInfo := {
  device : string;
  description : string;
  hwid : string
}.

(** [get_settings] *)
Definition get_settings (self : SerialScaleReader) : gmap string pyval :=
  let return_dict : gmap string pyval :=
    <["byte_size" := PyInt (bytesize (serial_reader self))]>
    (<["stop_bits" := stop_bits (serial_reader self)]>
    (<["parity" := PyStr (parity (serial_reader self))]>
    (<["baud_rate" := PyInt (baud_rate (serial_reader self))]>
    (<["port" := PyStr (port (serial_reader self))]> ∅)))) in
  return_dict.

(** The fixed tails of the error messages: the keys of each table, in
    insertion order, rendered and joined as the source does. *)
Definition parity_keys_text : string :=
  join ", " (map (fun kv => "'" +:+ fst kv +:+ "'") PARITY_OPTIONS).
Definition stop_bits_keys_text : string := "1, 1.5, 2".
Definition byte_size_keys_text : string := "5, 6, 7, 8".

(** ** Reference builtins for plain ASCII input

    [ascii_lower], [decimal_int] and [decimal_float] agree with CPython's
    [str.lower], [int] and [float] on ASCII strings without surrounding
    whitespace, digit separators or exponents; [None] stands for
    [ValueError].  They only serve to run the model on concrete input:
    every general statement below is over arbitrary builtins. *)

Definition ascii_lower_char (c : Ascii.ascii) : Ascii.ascii :=
  let n := Ascii.N_of_ascii c in
  if ((65 <=? n) && (n <=? 90))%N then Ascii.ascii_of_N (n + 32) else c.

Fixpoint ascii_lower (s : string) : string :=
  match s with
  | EmptyString => EmptyString
  | String c s' => String (ascii_lower_char c) (ascii_lower s')
  end.

Definition digit_value (c : Ascii.ascii) : option Z :=
  let n := Ascii.N_of_ascii c in
  if ((48 <=? n) && (n <=? 57))%N then Some (Z.of_N n - 48) else None.

(** Value of a run of decimal digits appended to [acc]. *)
Fixpoint digits_value (acc : Z) (s : string) : option Z :=
  match s with
  | EmptyString => Some acc
  | String c s' =>
      match digit_value c with
      | Some d => digits_value (10 * acc + d) s'
      | None => None
      end
  end.

Definition unsigned_int (s : string) : option Z :=
  if truthy s then digits_value 0 s else None.

Definition decimal_int (s : string) : option Z :=
  match s with
  | String "-"%char s' => Z.opp <$> unsigned_int s'
  | String "+"%char s' => unsigned_int s'
  | _ => unsigned_int s
  end.

(** Split at the first ["."]. *)
Fixpoint split_point (s : string) : string * option string :=
  match s with
  | EmptyString => (EmptyString, None)
  | String "."%char s' => (EmptyString, Some s')
  | String c s' => let '(a, b) := split_point s' in (String c a, b)
  end.

Definition float_of_nat_Z (z : Z) : float := of_uint63 (Uint63.of_Z z).

(** [m / 10^k] with both operands exact, hence correctly rounded. *)
Definition unsigned_float (s : string) : option float :=
  let '(ip, fp) := split_point s in
  let fp := default EmptyString fp in
  if truthy (ip +:+ fp) then
    match digits_value 0 (ip +:+ fp) with
    | Some m =>
        let k := Z.of_nat (String.length fp) in
        if (m <? 2 ^ 53) && (k <=? 15)
        then Some (float_of_nat_Z m / float_of_nat_Z (10 ^ k))%float
        else None
    | None => None
    end
  else None.

Definition decimal_float (s : string) : option float :=
  match s with
  | String "-"%char s' => PrimFloat.opp <$> unsigned_float s'
  | String "+"%char s' => unsigned_float s'
  | _ => unsigned_float s
  end.

(** The recognised configuration fields, and the key under which each
    appears in [kwargs], in the error dictionary and in the settings. *)
Inductive field := Port | BaudRate | Parity | StopBits | ByteSize.

Definition key (fld : field) : string :=
  match fld with
  | Port => "port"
  | BaudRate => "baud_rate"
  | Parity => "parity"
  | StopBits => "stop_bits"
  | ByteSize => "byte_size"
  end.

(** The valid sets of the three enumerated fields, as stored. *)
Definition valid_settings (sr : Serial) : Prop :=
  In (parity sr)
     [PARITY_NONE; PARITY_ODD; PARITY_EVEN; PARITY_MARK; PARITY_SPACE]
  /\ In (stop_bits sr)
        [STOPBITS_ONE; STOPBITS_ONE_POINT_FIVE; STOPBITS_TWO]
  /\ In (bytesize sr) [FIVEBITS; SIXBITS; SEVENBITS; EIGHTBITS].

(** Whether the parentheses of a pattern are unbalanced.  On a pattern
    without backslashes and brackets this is one of the reasons for which
    [re.compile] raises [re.error]; it is used for the hosts of the
    examples. *)
Fixpoint unbalanced_from (depth : nat) (regexp : string) : bool :=
  match regexp with
  | EmptyString => negb (Nat.eqb depth 0)
  | String c regexp' =>
      if Ascii.eqb c "("%char then unbalanced_from (S depth) regexp'
      else if Ascii.eqb c ")"%char then
        match depth with
        | O => true
        | S depth' => unbalanced_from depth' regexp'
        end
      else unbalanced_from depth regexp'
  end.

Definition unbalanced (regexp : string) : bool := unbalanced_from 0 regexp.

(** What [update_settings] takes from outside the repository: the
    builtins [int(s)] and [float(s)] on a [str] ([None]: [ValueError]) and
    [s.lower()], and pyserial's [list_ports.comports()] and
    [list(list_ports.grep(regexp))] on the host at the time of the call.
    [list_ports.grep] compiles its argument as a regular expression:
    [ill_formed regexp] tells whether that raises [re.error], and
    [grep regexp] is the list obtained when it does not. *)
Class Runtime := {
  py_int : string -> option Z;
  py_float : string -> option float;
  py_lower : string -> string;
  comports : list ListPortInfo;
  grep : string -> list ListPortInfo;
  ill_formed : string -> bool
}.

(** The reference builtins on a host without serial devices. *)
Definition ascii_runtime : Runtime :=
  {| py_int := decimal_int;
     py_float := decimal_float;
     py_lower := ascii_lower;
     comports := [];
     grep := fun _ => [];
     ill_formed := unbalanced |}.

Section ConfigurationStore.

Context {rt : Runtime}.

(** [setting_errors] and [self], threaded through the five blocks of
    [update_settings]. *)
Abbreviation store := (gmap string SettingError * SerialScaleReader)%type.

Definition update_port (kwargs : gmap string string) (st : store) : store :=
  let '(setting_errors, self) := st in
  match kwargs !! "port" with
  | Some port =>
      if truthy port then
        match grep port with
        | _ :: _ =>
            (setting_errors,
             set_serial_reader (set_port port (serial_reader self)) self)
        | [] =>
            (<["port" :=
                {| given_value := PyStr port;
                   error := "Invalid port. Detected ports: "
                              +:+ join ", " (map device comports) |}]>
               setting_errors, self)
        end
      else st
  | None => st
  end.

Definition update_baud_rate (kwargs : gmap string string) (st : store)
    : store :=
  let '(setting_errors, self) := st in
  match kwargs !! "baud_rate" with
  | Some baud_rate =>
      if truthy baud_rate then
        match py_int baud_rate with
        | Some n =>
            (setting_errors,
             set_serial_reader (set_baud_rate n (serial_reader self)) self)
        | None =>
            (<["baud_rate" :=
                {| given_value := PyStr baud_rate;
                   error := "Baud rate must be integer" |}]>
               setting_errors, self)
        end
      else st
  | None => st
  end.

Definition update_parity (kwargs : gmap string string) (st : store)
    : store :=
  let '(setting_errors, self) := st in
  match kwargs !! "parity" with
  | Some parity =>
      if truthy parity then
        let parity := py_lower parity in
        match dict_get String.eqb parity PARITY_OPTIONS with
        | Some v =>
            (setting_errors,
             set_serial_reader (set_parity v (serial_reader self)) self)
        | None =>
            (<["parity" :=
                {| given_value := PyStr parity;
                   error := "Parity must be one of the following: "
                              +:+ parity_keys_text |}]>
               setting_errors, self)
        end
      else st
  | None => st
  end.

Definition update_stop_bits (kwargs : gmap string string) (st : store)
    : store :=
  let '(setting_errors, self) := st in
  match kwargs !! "stop_bits" with
  | Some stop_bits =>
      if truthy stop_bits then
        let stop_bits :=
          match py_float stop_bits with
          | Some f => PyFloat f
          | None => PyStr stop_bits
          end in
        match dict_get py_eqb stop_bits STOP_BITS_OPTIONS with
        | Some v =>
            (setting_errors,
             set_serial_reader (set_stop_bits v (serial_reader self)) self)
        | None =>
            (<["stop_bits" :=
                {| given_value := stop_bits;
                   error := "Stop bits must be one of the following: "
                              +:+ stop_bits_keys_text |}]>
               setting_errors, self)
        end
      else st
  | None => st
  end.

(** A [str] is never a key of [BYTE_SIZE_OPTIONS]: when [int] fails the
    lookup fails. *)
Definition update_byte_size (kwargs : gmap string string) (st : store)
    : store :=
  let '(setting_errors, self) := st in
  match kwargs !! "byte_size" with
  | Some byte_size =>
      if truthy byte_size then
        let byte_size :=
          match py_int byte_size with
          | Some n => PyInt n
          | None => PyStr byte_size
          end in
        match
          match byte_size with
          | PyInt n => dict_get Z.eqb n BYTE_SIZE_OPTIONS
          | _ => None
          end
        with
        | Some v =>
            (setting_errors,
             set_serial_reader (set_bytesize v (serial_reader self)) self)
        | None =>
            (<["byte_size" :=
                {| given_value := byte_size;
                   error := "Byte size must be one of the following: "
                              +:+ byte_size_keys_text |}]>
               setting_errors, self)
        end
      else st
  | None => st
  end.

(** [update_settings]: the blocks in source order, starting from the
    empty error dictionary; returns the errors and the updated [self].
    This is the method run to its end; the calls that raise instead are
    told apart by [call_update_settings] below. *)
Definition update_settings (self : SerialScaleReader)
    (kwargs : gmap string string) : store :=
  let setting_errors : gmap string SettingError := ∅ in
  update_byte_size kwargs
    (update_stop_bits kwargs
      (update_parity kwargs
        (update_baud_rate kwargs
          (update_port kwargs (setting_errors, self))))).

(** The dictionary built by [update_and_get_settings]: the value of
    ['errors'] is evaluated first, so ['settings'] is read after the
    update. *)
Record UpdateResult := {
  errors : gmap string SettingError;
  settings : gmap string pyval
}.

Definition update_and_get_settings (self : SerialScaleReader)
    (kwargs : gmap string string) : UpdateResult * SerialScaleReader :=
  let '(errs, self') := update_settings self kwargs in
  ({| errors := errs; settings := get_settings self' |}, self').

(** Validation, as a function of the raw value alone: the value a
    field takes when the raw value is accepted, [None] when it is
    rejected. *)
Definition applied (fld : field) (raw : string) : option pyval :=
  match fld with
  | Port =>
      match grep raw with
      | _ :: _ => Some (PyStr raw)
      | [] => None
      end
  | BaudRate => PyInt <$> py_int raw
  | Parity => PyStr <$> dict_get String.eqb (py_lower raw) PARITY_OPTIONS
  | StopBits =>
      match py_float raw with
      | Some f => dict_get py_eqb (PyFloat f) STOP_BITS_OPTIONS
      | None => None
      end
  | ByteSize =>
      match py_int raw with
      | Some n => PyInt <$> dict_get Z.eqb n BYTE_SIZE_OPTIONS
      | None => None
      end
  end.

(** The valid values of each field, as the specification lists them,
    with the value the field then takes: a port that the enumeration
    matches; a baud rate that [int] reads; a parity that is, lower-cased,
    one of the five names; stop bits that [float] reads as 1, 1.5 or 2; a
    byte size that [int] reads as 5, 6, 7 or 8. *)
Definition accepted (fld : field) (raw : string) (v : pyval) : Prop :=
  match fld with
  | Port => grep raw <> [] /\ v = PyStr raw
  | BaudRate => exists n, py_int raw = Some n /\ v = PyInt n
  | Parity =>
      exists c,
        In (py_lower raw, c)
           [("none", PARITY_NONE); ("odd", PARITY_ODD);
            ("even", PARITY_EVEN); ("mark", PARITY_MARK);
            ("space", PARITY_SPACE)]
        /\ v = PyStr c
  | StopBits =>
      exists f,
        py_float raw = Some f
        /\ In (f, v)
             [(1%float, STOPBITS_ONE);
              (1.5%float, STOPBITS_ONE_POINT_FIVE);
              (2%float, STOPBITS_TWO)]
  | ByteSize =>
      exists n, py_int raw = Some n /\ In n [5; 6; 7; 8] /\ v = PyInt n
  end.

(** One block of [update_settings], seen from outside: it reads only
    its own key of [kwargs], writes only its own key of the errors and
    only its own field of the port. *)
Record block (k : string)
    (step : gmap string string ->
            gmap string SettingError * SerialScaleReader ->
            gmap string SettingError * SerialScaleReader) : Prop := {
  block_reads : forall kw1 kw2 st,
    kw1 !! k = kw2 !! k -> step kw1 st = step kw2 st;
  block_skips : forall kw st,
    kw !! k = None \/ kw !! k = Some EmptyString -> step kw st = st;
  block_errors : forall kw st k',
    k' <> k -> (step kw st).1 !! k' = st.1 !! k';
  block_settings : forall kw st k',
    k' <> k ->
    get_settings (step kw st).2 !! k' = get_settings st.2 !! k';
  block_rest : forall kw st,
    exists sr, (step kw st).2 = set_serial_reader sr st.2
}.

(** What a block does with a non-empty value for its own key. *)
Definition own (fld : field)
    (step : gmap string string ->
            gmap string SettingError * SerialScaleReader ->
            gmap string SettingError * SerialScaleReader) : Prop :=
  forall kw st raw,
    kw !! key fld = Some raw ->
    truthy raw = true ->
    match applied fld raw with
    | Some v =>
        (step kw st).1 = st.1
        /\ get_settings (step kw st).2 !! key fld = Some v
    | None =>
        is_Some ((step kw st).1 !! key fld) /\ (step kw st).2 = st.2
    end.

(** What every block maintains, relative to the reader [self0] and the
    call [kw] that [update_settings] started from. *)
Definition maintained (self0 : SerialScaleReader)
    (kw : gmap string string) (self : SerialScaleReader) : Prop :=
  valid_settings (serial_reader self)
  /\ (baud_rate (serial_reader self) = baud_rate (serial_reader self0)
      \/ exists raw, kw !! "baud_rate" = Some raw
                     /\ py_int raw
                        = Some (baud_rate (serial_reader self)))
  /\ (port (serial_reader self) = port (serial_reader self0)
      \/ grep (port (serial_reader self)) <> [])
  /\ self = set_serial_reader (serial_reader self) self0.

End ConfigurationStore.

(** ** Scale transaction engine *)

(** *** The simulated scale

    Time advances only in [time.sleep]: the scale is a script saying what
    each successive sleep brings.  [Arrive items] puts [items] in the
    input buffer; an item is a byte, or a failure of the [read(1)] that
    reaches it.  [InWaitingFault msg] makes the next [in_waiting] raise
    [SerialException(msg)].  Once the script is used up the scale stays
    silent.  [open_fault] and [write_fault] make [open] (entering the
    [with] block) and [write] raise.  [time.sleep] itself is taken not to
    fail: the engine is that of a reader whose [wait_interval_seconds]
    [time.sleep] accepts, as the 0.25 of every reader that the application
    creates.  With a negative interval, or one that is not a number, the
    first sleep raises [ValueError], which [read_weight] does not catch. *)

Inductive rx :=
| RxByte (b : byte)
| RxFault (msg : string).

Inductive poll_event :=
| Arrive (items : list rx)
| InWaitingFault (msg : string).

Record Scale := {
  open_fault : option string;
  write_fault : option string;
  script : list poll_event
}.

(** What [read_weight] does to the outside world, in program order
    ([print(open_reader)] is left out). *)
Inductive event :=
| EvOpen
| EvWrite (cmd : list byte)
| EvCheck (elapsed : float)
| EvSleep (seconds : float)
| EvRead (b : byte)
| EvFault (msg : string)
| EvClose.

(** The ways out of [read_weight]: its three [return] statements and the
    exception raised by [this_byte.decode("utf-8")]. *)
Inductive exit :=
| ExitWeight (scale_output : string)
| ExitTimeout
| ExitSerialError (msg : string)
| ExitDecodeError (this_byte : byte).

(** What the caller of [read_weight] gets. *)
Inductive py_result :=
| Return (s : string)
| RaiseUnicodeDecodeError (this_byte : byte).

Definition TIMEOUT_MESSAGE : string :=
  "Scale response took too long, check connection and reconsider max_wait_time_seconds".

Definition response (e : exit) : py_result :=
  match e with
  | ExitWeight scale_output => Return scale_output
  | ExitTimeout => Return TIMEOUT_MESSAGE
  | ExitSerialError msg => Return ("Error: " +:+ msg)
  | ExitDecodeError b => RaiseUnicodeDecodeError b
  end.

(** [a == b] on [bytes]. *)
Fixpoint bytes_eqb (a b : list byte) : bool :=
  match a, b with
  | [], [] => true
  | x :: a', y :: b' => Byte.eqb x y && bytes_eqb a' b'
  | _, _ => false
  end.

(** [this_byte.decode("utf-8")] for a [bytes] of length one: only the
    bytes below [0x80] are a complete UTF-8 sequence. *)
Definition decode_utf8 (this_byte : byte) : option Ascii.ascii :=
  if (Byte.to_N this_byte <? 128)%N
  then Some (Ascii.ascii_of_byte this_byte)
  else None.

(** The outcome of the inner [while open_reader.in_waiting > 0] loop. *)
Inductive drained :=
| Exhausted (scale_output : string)
| Stopped (e : exit) (unread : list rx).

(** The inner loop over the buffered [items], with the events it causes. *)
Fixpoint drain (end_of_weight_char : list byte) (items : list rx)
    (scale_output : string) : drained * list event :=
  match items with
  | [] => (Exhausted scale_output, [])
  | RxFault msg :: rest => (Stopped (ExitSerialError msg) rest, [EvFault msg])
  | RxByte this_byte :: rest =>
      if bytes_eqb [this_byte] end_of_weight_char then
        (Stopped (ExitWeight scale_output) rest, [EvRead this_byte])
      else
        match decode_utf8 this_byte with
        | None => (Stopped (ExitDecodeError this_byte) rest, [EvRead this_byte])
        | Some c =>
            let '(d, evs) :=
              drain end_of_weight_char rest
                (scale_output +:+ String c EmptyString) in
            (d, EvRead this_byte :: evs)
        end
  end.

(** A finished call. *)
Record Run := {
  run_exit : exit;
  run_self : SerialScaleReader;
  run_trace : list event;
  run_unread : list rx
}.

Definition next_poll (script : list poll_event)
    : poll_event * list poll_event :=
  match script with
  | [] => (Arrive [], [])
  | ev :: script' => (ev, script')
  end.

(** The [while True] loop; [fuel] bounds the number of iterations and
    [None] means the bound was hit. *)
Fixpoint poll (fuel : nat) (self : SerialScaleReader)
    (script : list poll_event) (scale_output : string) : option Run :=
  match fuel with
  | O => None
  | S fuel' =>
      if (max_wait_time_seconds self <? wait_time self)%float then
        Some {| run_exit := ExitTimeout;
                run_self := set_wait_time 0%float self;
                run_trace := [EvCheck (wait_time self)];
                run_unread := [] |}
      else
        let slept :=
          [EvCheck (wait_time self); EvSleep (wait_interval_seconds self)] in
        let self' :=
          set_wait_time (wait_time self + wait_interval_seconds self)%float
            self in
        match next_poll script with
        | (InWaitingFault msg, _) =>
            Some {| run_exit := ExitSerialError msg;
                    run_self := self';
                    run_trace := slept ++ [EvFault msg];
                    run_unread := [] |}
        | (Arrive items, script') =>
            match drain (end_of_weight_char self) items scale_output with
            | (Stopped e unread, evs) =>
                Some {| run_exit := e;
                        run_self := self';
                        run_trace := slept ++ evs;
                        run_unread := unread |}
            | (Exhausted scale_output', evs) =>
                match poll fuel' self' script' scale_output' with
                | Some r =>
                    Some {| run_exit := run_exit r;
                            run_self := run_self r;
                            run_trace := slept ++ evs ++ run_trace r;
                            run_unread := run_unread r |}
                | None => None
                end
            end
        end
  end.

(** [read_weight]: the [with] block opens the port and closes it on every
    way out; a [SerialException] from [open], [write], [in_waiting] or
    [read] ends in the [except] clause. *)
Definition read_weight (fuel : nat) (self : SerialScaleReader)
    (scale : Scale) : option Run :=
  match open_fault scale with
  | Some msg =>
      Some {| run_exit := ExitSerialError msg;
              run_self := self;
              run_trace := [EvFault msg];
              run_unread := [] |}
  | None =>
      match write_fault scale with
      | Some msg =>
          Some {| run_exit := ExitSerialError msg;
                  run_self := self;
                  run_trace := [EvOpen; EvFault msg; EvClose];
                  run_unread := [] |}
      | None =>
          match poll fuel self (script scale) EmptyString with
          | Some r =>
              Some {| run_exit := run_exit r;
                      run_self := run_self r;
                      run_trace :=
                        EvOpen :: EvWrite (read_weight_command self)
                          :: run_trace r ++ [EvClose];
                      run_unread := run_unread r |}
          | None => None
          end
      end
  end.

(** ** Notions used to state the properties of [read_weight] *)

(** The accumulator after [n] more rounds of
    [self.wait_time += self.wait_interval_seconds]. *)
Fixpoint elapsed (interval : float) (n : nat) (w : float) : float :=
  match n with
  | O => w
  | S n' => elapsed interval n' (w + interval)%float
  end.

(** Number of [time.sleep] calls in a trace. *)
Fixpoint sleeps (tr : list event) : nat :=
  match tr with
  | [] => O
  | EvSleep _ :: tr' => S (sleeps tr')
  | _ :: tr' => sleeps tr'
  end.

(** Device traffic: what the inner loop may cause. *)
Definition is_io (e : event) : bool :=
  match e with
  | EvRead _ | EvFault _ => true
  | _ => false
  end.

(** The shape of the events of the [while True] loop entered with the
    accumulator at [w]: every iteration starts with the check of the
    accumulator; when the check does not trip, the sleep follows, and only
    then the device traffic of that iteration; the next iteration checks
    the accumulator increased by the interval. *)
Inductive poll_trace (interval mx : float) : float -> list event -> Prop :=
| poll_trace_timeout w :
    (mx <? w)%float = true ->
    poll_trace interval mx w [EvCheck w]
| poll_trace_last w io :
    (mx <? w)%float = false ->
    forallb is_io io = true ->
    poll_trace interval mx w (EvCheck w :: EvSleep interval :: io)
| poll_trace_next w io tr :
    (mx <? w)%float = false ->
    forallb is_io io = true ->
    poll_trace interval mx (w + interval)%float tr ->
    poll_trace interval mx w (EvCheck w :: EvSleep interval :: io ++ tr).

(** The order "sleep, then check": every check of the accumulator comes
    after a sleep that no earlier check has used ([slept] says whether such
    a sleep is pending). *)
Fixpoint sleep_then_check (slept : bool) (tr : list event) : bool :=
  match tr with
  | [] => true
  | EvSleep _ :: tr' => sleep_then_check true tr'
  | EvCheck _ :: tr' => slept && sleep_then_check false tr'
  | _ :: tr' => sleep_then_check slept tr'
  end.

(** A byte that the inner loop appends to [scale_output]: not the marker,
    and decodable on its own. *)
Definition text_byte (end_of_weight_char : list byte) (b : byte) : bool :=
  negb (bytes_eqb [b] end_of_weight_char) && (Byte.to_N b <? 128)%N.

Definition text_item (end_of_weight_char : list byte) (it : rx) : bool :=
  match it with
  | RxByte b => text_byte end_of_weight_char b
  | RxFault _ => false
  end.

(** A scale that never sends the marker (and nothing that ends the call
    otherwise: no fault, no byte from [0x80] up). *)
Definition never_marker (end_of_weight_char : list byte)
    (script : list poll_event) : bool :=
  forallb (fun ev =>
             match ev with
             | Arrive items => forallb (text_item end_of_weight_char) items
             | InWaitingFault _ => false
             end) script.

(** Whether the marker is among the bytes that a scale sends. *)
Definition sends_marker (end_of_weight_char : list byte)
    (script : list poll_event) : bool :=
  existsb (fun ev =>
             match ev with
             | Arrive items =>
                 existsb (fun it =>
                            match it with
                            | RxByte b => bytes_eqb [b] end_of_weight_char
                            | RxFault _ => false
                            end) items
             | InWaitingFault _ => false
             end) script.

(** A decode fault: a byte other than the marker was read that is not
    text on its own. *)
Definition undecodable_read (end_of_weight_char : list byte) (e : event)
    : bool :=
  match e with
  | EvRead b =>
      negb (bytes_eqb [b] end_of_weight_char) && negb (Byte.to_N b <? 128)%N
  | _ => false
  end.

Definition decode_fault (end_of_weight_char : list byte) (tr : list event)
    : bool :=
  existsb (undecodable_read end_of_weight_char) tr.

(** The messages of the faults in a trace. *)
Fixpoint faults (tr : list event) : list string :=
  match tr with
  | [] => []
  | EvFault msg :: tr' => msg :: faults tr'
  | _ :: tr' => faults tr'
  end.

(** Validity of a whole byte string as UTF-8 text (what
    [bs.decode("utf-8")] accepts). *)
Definition continuation (b : byte) : bool :=
  ((128 <=? Byte.to_N b) && (Byte.to_N b <=? 191))%N.

Fixpoint utf8_valid (bs : list byte) : bool :=
  match bs with
  | [] => true
  | b0 :: r0 =>
      let n0 := Byte.to_N b0 in
      if (n0 <? 128)%N then utf8_valid r0
      else
        match r0 with
        | [] => false
        | b1 :: r1 =>
            let n1 := Byte.to_N b1 in
            if ((194 <=? n0) && (n0 <=? 223))%N then
              continuation b1 && utf8_valid r1
            else
              match r1 with
              | [] => false
              | b2 :: r2 =>
                  if ((224 <=? n0) && (n0 <=? 239))%N then
                    continuation b1 && continuation b2
                    && (negb (n0 =? 224)%N || (160 <=? n1)%N)
                    && (negb (n0 =? 237)%N || (n1 <=? 159)%N)
                    && utf8_valid r2
                  else
                    match r2 with
                    | [] => false
                    | b3 :: r3 =>
                        ((240 <=? n0) && (n0 <=? 244))%N
                        && continuation b1 && continuation b2
                        && continuation b3
                        && (negb (n0 =? 240)%N || (144 <=? n1)%N)
                        && (negb (n0 =? 244)%N || (n1 <=? 143)%N)
                        && utf8_valid r3
                    end
              end
        end
  end.

(** The bytes read in a trace, in order. *)
Fixpoint reads (tr : list event) : list byte :=
  match tr with
  | [] => []
  | EvRead b :: tr' => b :: reads tr'
  | _ :: tr' => reads tr'
  end.

(** The openings and closings of the port in a trace, in order. *)
Fixpoint port_events (tr : list event) : list event :=
  match tr with
  | [] => []
  | EvOpen :: tr' => EvOpen :: port_events tr'
  | EvClose :: tr' => EvClose :: port_events tr'
  | _ :: tr' => port_events tr'
  end.

(** The script of a scale that sends the given chunks of bytes, one per
    poll interval. *)
Definition arrivals (chunks : list (list byte)) : list poll_event :=
  map (fun chunk => Arrive (map RxByte chunk)) chunks.

(** Successive calls of [read_weight] on the same reader, one scale script
    per call; the responses in call order and the reader afterwards. *)
Fixpoint read_weights (fuel : nat) (self : SerialScaleReader)
    (scales : list Scale) : option (list py_result * SerialScaleReader) :=
  match scales with
  | [] => Some ([], self)
  | scale :: scales' =>
      match read_weight fuel self scale with
      | Some r =>
          match read_weights fuel (run_self r) scales' with
          | Some (rs, self') => Some (response (run_exit r) :: rs, self')
          | None => None
          end
      | None => None
      end
  end.

(** A healthy scale that answers within the first poll interval. *)
Definition answering (bs : list byte) : Scale :=
  {| open_fault := None;
     write_fault := None;
     script := [Arrive (map RxByte bs)] |}.

(** A healthy scale that never sends anything. *)
Definition silent : Scale :=
  {| open_fault := None; write_fault := None; script := [] |}.

(** ** Concrete readers, calls and scales *)

(** [update_settings] with the reference builtins, on a host without
    serial devices. *)
Definition update_settings_ascii :=
  update_settings (rt := ascii_runtime).

Definition rejected_kwargs : gmap string string :=
  <["parity" := "EVENN"]>
  (<["stop_bits" := "3"]>
  (<["byte_size" := "9"]>
  (<["baud_rate" := "9k6"]> ∅))).

Definition accepted_kwargs : gmap string string :=
  <["parity" := "Odd"]>
  (<["stop_bits" := "1.5"]>
  (<["byte_size" := "8"]>
  (<["baud_rate" := "19200"]> ∅))).

(** The scale answers ["123"], the marker [0x03], and one more byte. *)
Definition answer_123 : Scale := answering [x31; x32; x33; x03; x34].

(** The call of a fresh reader against [answer_123]. *)
Definition answered_run : Run :=
  {| run_exit := ExitWeight "123";
     run_self := set_wait_time 0.25%float (default_reader "COM1");
     run_trace :=
       [EvOpen; EvWrite [x57; x0d]; EvCheck 0%float; EvSleep 0.25%float;
        EvRead x31; EvRead x32; EvRead x33; EvRead x03; EvClose];
     run_unread := [RxByte x34] |}.

(** [SerialScaleReader(max_wait_time_seconds=0.5)] *)
Definition impatient_reader : SerialScaleReader :=
  init 0.25%float 0.5%float [x57; x0d] [x03] "COM1" 9600
    PARITY_EVEN STOPBITS_ONE SEVENBITS.

(** The second poll brings the two bytes of a UTF-8 encoded e-acute and
    the marker. *)
Definition answer_utf8 : Scale :=
  {| open_fault := None;
     write_fault := None;
     script := [Arrive [RxByte x31];
                Arrive [RxByte xc3; RxByte xa9; RxByte x03]] |}.

Definition undecoded_run : Run :=
  {| run_exit := ExitDecodeError xc3;
     run_self := set_wait_time 0.5%float (default_reader "COM1");
     run_trace :=
       [EvOpen; EvWrite [x57; x0d]; EvCheck 0%float; EvSleep 0.25%float;
        EvRead x31; EvCheck 0.25%float; EvSleep 0.25%float; EvRead xc3;
        EvClose];
     run_unread := [RxByte xa9; RxByte x03] |}.

(** The port cannot be opened. *)
Definition unplugged : Scale :=
  {| open_fault := Some "could not open port 'COM1'";
     write_fault := None;
     script := [] |}.

Definition refused_run : Run :=
  {| run_exit := ExitSerialError "could not open port 'COM1'";
     run_self := default_reader "COM1";
     run_trace := [EvFault "could not open port 'COM1'"];
     run_unread := [] |}.

(** The port opens but does not take the command. *)
Definition jammed : Scale :=
  {| open_fault := None;
     write_fault := Some "Write timeout";
     script := [] |}.

Definition jammed_run : Run :=
  {| run_exit := ExitSerialError "Write timeout";
     run_self := default_reader "COM1";
     run_trace := [EvOpen; EvFault "Write timeout"; EvClose];
     run_unread := [] |}.

(** The scale sends nothing, and is lost during the third poll
    interval. *)
Definition lost_later : Scale :=
  {| open_fault := None;
     write_fault := None;
     script := [Arrive []; Arrive []; InWaitingFault "device disconnected"] |}.

(** The scale sends nothing but the byte [0xC3], during the third poll
    interval. *)
Definition garbled_later : Scale :=
  {| open_fault := None;
     write_fault := None;
     script := [Arrive []; Arrive []; Arrive [RxByte xc3]] |}.

(** ** Notions used to state further properties of the configuration store *)

(** The recognised field of a key, if any. *)
Definition field_of (k : string) : option field :=
  if String.eqb k "port" then Some Port
  else if String.eqb k "baud_rate" then Some BaudRate
  else if String.eqb k "parity" then Some Parity
  else if String.eqb k "stop_bits" then Some StopBits
  else if String.eqb k "byte_size" then Some ByteSize
  else None.

Section Verdicts.

Context {rt : Runtime}.

(** The entry that the block of a field records for a value it rejects:
    the value as the block holds it at that point, and the block's
    message. *)
Definition rejection (fld : field) (raw : string) : SettingError :=
  match fld with
  | Port =>
      {| given_value := PyStr raw;
         error := "Invalid port. Detected ports: "
                    +:+ join ", " (map device comports) |}
  | BaudRate =>
      {| given_value := PyStr raw;
         error := "Baud rate must be integer" |}
  | Parity =>
      {| given_value := PyStr (py_lower raw);
         error := "Parity must be one of the following: "
                    +:+ parity_keys_text |}
  | StopBits =>
      {| given_value :=
           match py_float raw with
           | Some f => PyFloat f
           | None => PyStr raw
           end;
         error := "Stop bits must be one of the following: "
                    +:+ stop_bits_keys_text |}
  | ByteSize =>
      {| given_value :=
           match py_int raw with
           | Some n => PyInt n
           | None => PyStr raw
           end;
         error := "Byte size must be one of the following: "
                    +:+ byte_size_keys_text |}
  end.

(** What a call reports under a key, read off the call alone. *)
Definition verdict (kw : gmap string string) (k : string)
    : option SettingError :=
  match field_of k, kw !! k with
  | Some fld, Some raw =>
      if truthy raw then
        match applied fld raw with
        | Some _ => None
        | None => Some (rejection fld raw)
        end
      else None
  | _, _ => None
  end.

(** What the settings show under a key after a call, given what they
    showed before. *)
Definition shown (kw : gmap string string) (k : string)
    (before : option pyval) : option pyval :=
  match field_of k, kw !! k with
  | Some fld, Some raw =>
      if truthy raw then
        match applied fld raw with
        | Some v => Some v
        | None => before
        end
      else before
  | _, _ => before
  end.

(** A block records exactly [rejection] for a value it rejects. *)
Definition rejects (fld : field)
    (step : gmap string string ->
            gmap string SettingError * SerialScaleReader ->
            gmap string SettingError * SerialScaleReader) : Prop :=
  forall kw st raw,
    kw !! key fld = Some raw ->
    truthy raw = true ->
    applied fld raw = None ->
    (step kw st).1 !! key fld = Some (rejection fld raw).

End Verdicts.


(** The five recognised keys. *)
Definition recognised_keys : list string :=
  ["port"; "baud_rate"; "parity"; "stop_bits"; "byte_size"].

(** ** The HTTP layer ([app.py])

    The view functions, as functions of what Flask hands them (the
    request) and of the module-level [scale_reader], which they share and
    may replace by its updated state.  [json.dumps] is not part of the
    repository: the views are stated over an arbitrary encoder.  A view
    either returns the body of the response or raises; what Flask makes
    of either is left out. *)

(** What the views read of [flask.request]: [request.form.items()] and
    [request.args.items()] yield one value per key. *)
Record Request := {
  method : string;
  args : gmap string string;
  form : gmap string string
}.

(** The two dictionaries that the views pass to [json.dumps]. *)
Inductive dumped :=
| SettingsDict (d : gmap string pyval)
| UpdateDict (d : UpdateResult).

Class JsonEncoder := {
  json_dumps : dumped -> string
}.

Inductive exception :=
| TypeError
| ReError
| UnicodeDecodeError (this_byte : byte).

Inductive view_result :=
| Responds (body : string)
| Raises (exc : exception).

(** ** Calls of the configuration store

    [update_settings] and [update_and_get_settings] as they are called,
    with any keyword arguments.  Two calls do not return.  The call binds
    [self] to the reader, so a keyword named [self] raises [TypeError]
    before the method runs.  And the port block, which runs first, hands a
    non-empty [port] to [list_ports.grep], whose [re.error] for an
    ill-formed pattern nothing catches: the call ends there, before any
    field is assigned and any error recorded.  Every other call runs the
    five blocks to the end. *)
Inductive outcome (A : Type) :=
| Returns (a : A)
| Raised (exc : exception).

Arguments Returns {A} a.
Arguments Raised {A} exc.

Section Calls.

Context {rt : Runtime}.

Definition raised_by (kwargs : gmap string string) : option exception :=
  match kwargs !! "self" with
  | Some _ => Some TypeError
  | None =>
      match kwargs !! "port" with
      | Some port =>
          if truthy port && ill_formed port then Some ReError else None
      | None => None
      end
  end.

Definition call_update_settings (self : SerialScaleReader)
    (kwargs : gmap string string)
    : outcome (gmap string SettingError) * SerialScaleReader :=
  match raised_by kwargs with
  | Some exc => (Raised exc, self)
  | None =>
      let '(setting_errors, self') := update_settings self kwargs in
      (Returns setting_errors, self')
  end.

Definition call_update_and_get_settings (self : SerialScaleReader)
    (kwargs : gmap string string)
    : outcome UpdateResult * SerialScaleReader :=
  match call_update_settings self kwargs with
  | (Returns setting_errors, self') =>
      (Returns {| errors := setting_errors;
                  settings := get_settings self' |}, self')
  | (Raised exc, self') => (Raised exc, self')
  end.

End Calls.

Module App.

Section Views.

Context {rt : Runtime} {enc : JsonEncoder}.

(** [scale_reader = SerialScaleReader(port='COM1')], replaced under
    [__main__] when an argument is given ([sys.argv[0]] is the script). *)
Definition scale_reader (argv : list string) : SerialScaleReader :=
  match argv with
  | _ :: port_arg :: _ => default_reader port_arg
  | _ => default_reader "COM1"
  end.

Definition index : string :=
  "Access a serial port scale via http: <ul>"
  +:+ "<li><a href='/read'>'/read'</a> to read scale response</li>"
  +:+ "<li><a href='/get_settings'>'/get_settings'</a> to view scale settings</li>"
  +:+ "<li><a href='/update_settings'>'/update_settings'</a> to change scale settings via GET or POST</li> </ul>".

(** [update_settings]: [new_settings] is passed to
    [scale_reader.update_and_get_settings] as keyword arguments; what
    that call raises, the view raises. *)
Definition update_settings (request : Request)
    (scale_reader : SerialScaleReader) : view_result * SerialScaleReader :=
  let new_settings :=
    if String.eqb (method request) "POST" then form request
    else args request in
  match call_update_and_get_settings scale_reader new_settings with
  | (Returns result, scale_reader') =>
      (Responds (json_dumps (UpdateDict result)), scale_reader')
  | (Raised exc, scale_reader') => (Raises exc, scale_reader')
  end.

Definition get_settings (scale_reader : SerialScaleReader) : view_result :=
  Responds (json_dumps (SettingsDict (get_settings scale_reader))).

(** [read]: [None] when the poll loop of [read_weight] does not finish
    within [fuel] iterations. *)
Definition read (fuel : nat) (scale : Scale)
    (scale_reader : SerialScaleReader)
    : option (view_result * SerialScaleReader) :=
  match read_weight fuel scale_reader scale with
  | Some r =>
      Some (match response (run_exit r) with
            | Return s => Responds s
            | RaiseUnicodeDecodeError b => Raises (UnicodeDecodeError b)
            end,
            run_self r)
  | None => None
  end.

End Views.

End App.

(** A request to the application: the view it is routed to, with what
    the view takes from the request and, for [/read], what the scale does
    during the call. *)
Inductive call :=
| GetIndex
| UpdateSettings (request : Request)
| GetSettings
| Read (scale : Scale).

Section Application.

Context {rt : Runtime} {enc : JsonEncoder}.

Definition serve (fuel : nat) (scale_reader : SerialScaleReader) (c : call)
    : option (view_result * SerialScaleReader) :=
  match c with
  | GetIndex => Some (Responds App.index, scale_reader)
  | UpdateSettings request => Some (App.update_settings request scale_reader)
  | GetSettings => Some (App.get_settings scale_reader, scale_reader)
  | Read scale => App.read fuel scale scale_reader
  end.

(** The requests of a process, served one at a time. *)
Fixpoint serve_all (fuel : nat) (scale_reader : SerialScaleReader)
    (calls : list call) : option (list view_result * SerialScaleReader) :=
  match calls with
  | [] => Some ([], scale_reader)
  | c :: calls' =>
      match serve fuel scale_reader c with
      | Some (res, scale_reader') =>
          match serve_all fuel scale_reader' calls' with
          | Some (ress, scale_reader'') => Some (res :: ress, scale_reader'')
          | None => None
          end
      | None => None
      end
  end.

End Application.

(** An encoder for examples: it tells the two dictionaries apart and
    nothing more. *)
Definition tag_encoder : JsonEncoder :=
  {| json_dumps := fun d =>
       match d with
       | SettingsDict _ => "settings"
       | UpdateDict _ => "errors and settings"
       end |}.

(** The protocol constants with which every reader of the application
    is created. *)
Definition protocol_defaults (self : SerialScaleReader) : Prop :=
  wait_interval_seconds self = 0.25%float
  /\ max_wait_time_seconds self = 1.5%float
  /\ read_weight_command self = [x57; x0d]
  /\ end_of_weight_char self = [x03].

(** A request that is not routed to [update_settings]. *)
Definition not_an_update (c : call) : bool :=
  match c with
  | UpdateSettings _ => false
  | _ => true
  end.

(** A session for examples: started with a port argument, it takes a
    [GET /update_settings] with four valid fields, a [/read] that the
    scale answers and a [/get_settings]. *)
Definition example_calls : list call :=
  [ UpdateSettings
      {| method := "GET"; args := accepted_kwargs; form := ∅ |};
    Read answer_123;
    GetSettings ].

(** The reader that [example_calls] leave. *)
Definition example_reader : SerialScaleReader :=
  {| wait_time := 0.25%float;
     wait_interval_seconds := 0.25%float;
     max_wait_time_seconds := 1.5%float;
     read_weight_command := [x57; x0d];
     end_of_weight_char := [x03];
     serial_reader :=
       {| port := "COM7";
          baud_rate := 19200;
          parity := "O";
          stop_bits := PyFloat 1.5%float;
          bytesize := 8 |} |}.

(** * Properties of the port configuration store *)

(** The keys of the recognised fields are pairwise distinct. *)
Lemma key_inj (f g : field) : key f = key g -> f = g.
Proof. destruct f, g; simpl; intros H; try reflexivity; discriminate H. Qed.

(** What the parity table holds. *)
Lemma PARITY_OPTIONS_values (k v : string) :
  dict_get String.eqb k PARITY_OPTIONS = Some v ->
  In v [PARITY_NONE; PARITY_ODD; PARITY_EVEN; PARITY_MARK; PARITY_SPACE].
Proof.
  unfold PARITY_OPTIONS; simpl.
  repeat (destruct (String.eqb k _);
          [intros [= <-]; simpl; tauto|]).
  discriminate.
Qed.

Lemma STOP_BITS_OPTIONS_values (k v : pyval) :
  dict_get py_eqb k STOP_BITS_OPTIONS = Some v ->
  In v [STOPBITS_ONE; STOPBITS_ONE_POINT_FIVE; STOPBITS_TWO].
Proof.
  unfold STOP_BITS_OPTIONS; simpl.
  repeat (destruct (py_eqb k _);
          [intros [= <-]; simpl; tauto|]).
  discriminate.
Qed.

Lemma BYTE_SIZE_OPTIONS_values (k v : Z) :
  dict_get Z.eqb k BYTE_SIZE_OPTIONS = Some v ->
  In v [FIVEBITS; SIXBITS; SEVENBITS; EIGHTBITS].
Proof.
  unfold BYTE_SIZE_OPTIONS; simpl.
  repeat (destruct (Z.eqb k _);
          [intros [= <-]; simpl; tauto|]).
  discriminate.
Qed.

(** The byte-size table is the identity on 5, 6, 7 and 8. *)
Lemma BYTE_SIZE_OPTIONS_spec (k : Z) :
  dict_get Z.eqb k BYTE_SIZE_OPTIONS
  = if decide (5 <= k <= 8) then Some k else None.
Proof.
  unfold BYTE_SIZE_OPTIONS, FIVEBITS, SIXBITS, SEVENBITS, EIGHTBITS; simpl.
  repeat match goal with
         | |- context [Z.eqb k ?n] =>
             destruct (Z.eqb_spec k n);
             [subst; case_decide; [reflexivity|lia]|]
         end.
  case_decide; [lia|reflexivity].
Qed.

Section ConfigurationStoreFacts.

Context {rt : Runtime}.


Ltac block_cases :=
  unfold update_port, update_baud_rate, update_parity, update_stop_bits,
    update_byte_size; intros;
  repeat match goal with
         | st : (_ * _)%type |- _ => destruct st
         | H : _ \/ _ |- _ => destruct H
         | H : _ !! _ = _ |- _ => rewrite H
         end;
  repeat case_match; simplify_eq/=; try done.

Ltac block_tac :=
  split;
  [ block_cases
  | block_cases
  | block_cases; by rewrite lookup_insert_ne
  | block_cases; unfold get_settings; simpl;
    rewrite ?lookup_insert; repeat case_decide; simplify_eq; done
  | block_cases;
    match goal with
    | |- exists sr, _ = set_serial_reader sr ?s =>
        first [ by eexists | exists (serial_reader s); by destruct s ]
    end ].

Lemma update_port_block : block "port" update_port.
Proof. block_tac. Qed.

Lemma update_baud_rate_block : block "baud_rate" update_baud_rate.
Proof. block_tac. Qed.

Lemma update_parity_block : block "parity" update_parity.
Proof. block_tac. Qed.

Lemma update_stop_bits_block : block "stop_bits" update_stop_bits.
Proof. block_tac. Qed.

Lemma update_byte_size_block : block "byte_size" update_byte_size.
Proof. block_tac. Qed.

(** Absence of a key and an empty value for it look the same to a
    block. *)
Lemma block_falsy_absent k step (B : block k step) kw k0 st :
  step (<[k0 := EmptyString]> kw) st = step (delete k0 kw) st.
Proof.
  destruct (decide (k0 = k)) as [->|Hne].
  - rewrite !(block_skips _ _ B); [done| |].
    + left. apply lookup_delete_eq.
    + right. apply lookup_insert_eq.
  - apply (block_reads _ _ B).
    by rewrite lookup_insert_ne, lookup_delete_ne.
Qed.

(** Moving a lookup of a foreign key through the blocks. *)
Ltac frame :=
  repeat first
    [ rewrite (block_errors _ _ update_port_block) by done
    | rewrite (block_errors _ _ update_baud_rate_block) by done
    | rewrite (block_errors _ _ update_parity_block) by done
    | rewrite (block_errors _ _ update_stop_bits_block) by done
    | rewrite (block_errors _ _ update_byte_size_block) by done
    | rewrite (block_settings _ _ update_port_block) by done
    | rewrite (block_settings _ _ update_baud_rate_block) by done
    | rewrite (block_settings _ _ update_parity_block) by done
    | rewrite (block_settings _ _ update_stop_bits_block) by done
    | rewrite (block_settings _ _ update_byte_size_block) by done ].


Ltac own_tac :=
  unfold own, applied, update_port, update_baud_rate, update_parity, update_stop_bits,
    update_byte_size; simpl; intros kw [errs self] raw H Ht;
  rewrite H, Ht; simpl;
  repeat case_match; simplify_eq/=; try congruence;
  first [ split; [done | reflexivity]
        | split; [rewrite lookup_insert_eq; by eexists | done] ].

Lemma update_port_own : own Port update_port.
Proof. own_tac. Qed.

Lemma update_baud_rate_own : own BaudRate update_baud_rate.
Proof. own_tac. Qed.

Lemma update_parity_own : own Parity update_parity.
Proof. own_tac. Qed.

Lemma update_stop_bits_own : own StopBits update_stop_bits.
Proof. own_tac. Qed.

Lemma update_byte_size_own : own ByteSize update_byte_size.
Proof. own_tac. Qed.

(** The verdict of [update_settings] on one field supplied with a
    non-empty value, whatever else the call supplies. *)
Lemma update_settings_field self kw fld raw :
  kw !! key fld = Some raw ->
  truthy raw = true ->
  match applied fld raw with
  | Some v =>
      (update_settings self kw).1 !! key fld = None
      /\ get_settings (update_settings self kw).2 !! key fld = Some v
  | None =>
      is_Some ((update_settings self kw).1 !! key fld)
      /\ get_settings (update_settings self kw).2 !! key fld
         = get_settings self !! key fld
  end.
Proof.
  intros H Ht. unfold update_settings.
  destruct fld; unfold key in *.
  - pose proof (update_port_own kw (∅, self) raw H Ht) as Hown.
    destruct (applied Port raw); unfold key in Hown; destruct Hown as [H1 H2];
      frame; rewrite ?H1, ?H2; done.
  - set (st := update_port kw (∅, self)).
    pose proof (update_baud_rate_own kw st raw H Ht) as Hown.
    destruct (applied BaudRate raw); unfold key in Hown;
      destruct Hown as [H1 H2]; frame; rewrite ?H1, ?H2;
      subst st; frame; done.
  - set (st := update_baud_rate kw (update_port kw (∅, self))).
    pose proof (update_parity_own kw st raw H Ht) as Hown.
    destruct (applied Parity raw); unfold key in Hown;
      destruct Hown as [H1 H2]; frame; rewrite ?H1, ?H2;
      subst st; frame; done.
  - set (st := update_parity kw
                 (update_baud_rate kw (update_port kw (∅, self)))).
    pose proof (update_stop_bits_own kw st raw H Ht) as Hown.
    destruct (applied StopBits raw); unfold key in Hown;
      destruct Hown as [H1 H2]; frame; rewrite ?H1, ?H2;
      subst st; frame; done.
  - set (st := update_stop_bits kw
                 (update_parity kw
                    (update_baud_rate kw (update_port kw (∅, self))))).
    pose proof (update_byte_size_own kw st raw H Ht) as Hown.
    destruct (applied ByteSize raw); unfold key in Hown;
      destruct Hown as [H1 H2]; frame; rewrite ?H1, ?H2;
      subst st; frame; done.
Qed.

(** A rejected value is reported under the field's key and the field
    keeps its value, whatever else the call supplies. *)
Lemma update_settings_rejects_invalid self kw fld raw :
  kw !! key fld = Some raw ->
  truthy raw = true ->
  applied fld raw = None ->
  is_Some ((update_settings self kw).1 !! key fld)
  /\ get_settings (update_settings self kw).2 !! key fld
     = get_settings self !! key fld.
Proof.
  intros H Ht Hv.
  pose proof (update_settings_field self kw fld raw H Ht) as Hf.
  rewrite Hv in Hf. exact Hf.
Qed.

(** A valid value passes the validation of [update_settings], with the
    value listed for it. *)
Lemma accepted_applied fld raw v : accepted fld raw v -> applied fld raw = Some v.
Proof.
  destruct fld; unfold accepted, applied.
  - intros [Hne ->]. by destruct (grep raw).
  - intros (n & -> & ->). reflexivity.
  - intros (c & Hin & ->). cbv [In] in Hin.
    repeat (destruct Hin as [[= <- <-]|Hin]; [reflexivity|]). done.
  - intros (f & -> & Hin). cbv [In] in Hin.
    repeat (destruct Hin as [[= <- <-]|Hin]; [reflexivity|]). done.
  - intros (n & -> & Hin & ->). cbv [In] in Hin.
    repeat (destruct Hin as [<-|Hin]; [reflexivity|]). done.
Qed.

(** C6: for every field and every valid value of it (baud rate: any
    string that [int] reads; parity: any string that is, lower-cased, one
    of none, odd, even, mark, space; stop bits: any string that [float]
    reads as 1, 1.5 or 2; byte size: any string that [int] reads as 5, 6,
    7 or 8), [update_settings] returns no error under the field's key and
    [get_settings] then shows exactly the applied value, whatever the
    other entries of the call are.  A valid value is a non-empty
    string. *)
Theorem update_settings_applies_valid self kw fld raw v :
  kw !! key fld = Some raw ->
  truthy raw = true ->
  accepted fld raw v ->
  (update_settings self kw).1 !! key fld = None
  /\ get_settings (update_settings self kw).2 !! key fld = Some v.
Proof.
  intros H Ht Hv. apply accepted_applied in Hv.
  pose proof (update_settings_field self kw fld raw H Ht) as Hf.
  rewrite Hv in Hf. exact Hf.
Qed.

(** A block leaves alone every key that is absent or empty in the
    call. *)
Lemma block_untouched k0 step (B : block k0 step) kw st k :
  kw !! k = None \/ kw !! k = Some EmptyString ->
  (step kw st).1 !! k = st.1 !! k
  /\ get_settings (step kw st).2 !! k = get_settings st.2 !! k.
Proof.
  intros H. destruct (decide (k = k0)) as [->|Hne].
  - by rewrite (block_skips _ _ B).
  - by rewrite (block_errors _ _ B), (block_settings _ _ B).
Qed.

Lemma update_settings_untouched self kw k :
  kw !! k = None \/ kw !! k = Some EmptyString ->
  (update_settings self kw).1 !! k = None
  /\ get_settings (update_settings self kw).2 !! k
     = get_settings self !! k.
Proof.
  intros H. unfold update_settings.
  destruct (block_untouched _ _ update_byte_size_block kw
    (update_stop_bits kw (update_parity kw (update_baud_rate kw
       (update_port kw (∅, self))))) k H) as [-> ->].
  destruct (block_untouched _ _ update_stop_bits_block kw
    (update_parity kw (update_baud_rate kw
       (update_port kw (∅, self)))) k H) as [-> ->].
  destruct (block_untouched _ _ update_parity_block kw
    (update_baud_rate kw (update_port kw (∅, self))) k H) as [-> ->].
  destruct (block_untouched _ _ update_baud_rate_block kw
    (update_port kw (∅, self)) k H) as [-> ->].
  destruct (block_untouched _ _ update_port_block kw
    (∅, self) k H) as [-> ->].
  split; [apply lookup_empty | reflexivity].
Qed.

(** C7: a key whose raw value is empty is treated as not provided.  The
    whole outcome of [update_settings] (errors and reader) is the one
    obtained without the key; in particular no error is recorded under
    the key and the setting stored under it is unchanged.  This holds
    for every key, hence for the five recognised ones. *)
Theorem update_settings_falsy_is_absent self kw k :
  update_settings self (<[k := EmptyString]> kw)
  = update_settings self (delete k kw)
  /\ (update_settings self (<[k := EmptyString]> kw)).1 !! k = None
  /\ get_settings (update_settings self (<[k := EmptyString]> kw)).2 !! k
     = get_settings self !! k.
Proof.
  split.
  - unfold update_settings.
    rewrite (block_falsy_absent _ _ update_port_block).
    rewrite (block_falsy_absent _ _ update_baud_rate_block).
    rewrite (block_falsy_absent _ _ update_parity_block).
    rewrite (block_falsy_absent _ _ update_stop_bits_block).
    rewrite (block_falsy_absent _ _ update_byte_size_block).
    reflexivity.
  - apply update_settings_untouched. right. apply lookup_insert_eq.
Qed.

Lemma update_settings_empty self : update_settings self ∅ = (∅, self).
Proof.
  unfold update_settings.
  rewrite (block_skips _ _ update_port_block) by (left; apply lookup_empty).
  rewrite (block_skips _ _ update_baud_rate_block)
    by (left; apply lookup_empty).
  rewrite (block_skips _ _ update_parity_block)
    by (left; apply lookup_empty).
  rewrite (block_skips _ _ update_stop_bits_block)
    by (left; apply lookup_empty).
  rewrite (block_skips _ _ update_byte_size_block)
    by (left; apply lookup_empty).
  reflexivity.
Qed.

(** With an empty mapping [update_and_get_settings] returns an empty
    error dictionary and the current settings, and leaves the reader as
    it was. *)
Lemma update_and_get_settings_empty self :
  update_and_get_settings self ∅
  = ({| errors := ∅; settings := get_settings self |}, self).
Proof. unfold update_and_get_settings. by rewrite update_settings_empty. Qed.

(** So does the call without keyword arguments: it does not raise. *)
Lemma call_update_and_get_settings_empty self :
  call_update_and_get_settings self ∅
  = (Returns {| errors := ∅; settings := get_settings self |}, self).
Proof.
  unfold call_update_and_get_settings, call_update_settings, raised_by.
  rewrite !lookup_empty. by rewrite update_settings_empty.
Qed.


Local Arguments In : simpl never.

Ltac maintained_tac :=
  unfold maintained, valid_settings, update_port, update_baud_rate, update_parity, update_stop_bits,
    update_byte_size;
  intros self0 kw [errs self] (Hv & Hb & Hp & He); simpl in *;
  destruct Hv as (Hv1 & Hv2 & Hv3);
  repeat case_match; simplify_eq/=;
  (split_and!;
   [ first [ assumption | eapply PARITY_OPTIONS_values; eassumption
           | cbv [In]; tauto ]
   | first [ assumption | eapply STOP_BITS_OPTIONS_values; eassumption
           | cbv [In]; tauto ]
   | first [ assumption | eapply BYTE_SIZE_OPTIONS_values; eassumption
           | cbv [In]; tauto ]
   | first [ assumption
           | right; eexists; split; [reflexivity | eassumption] ]
   | first [ assumption | right; congruence ]
   | first [ assumption
           | destruct self, self0; unfold set_serial_reader in *;
             simpl in *; congruence ] ]).

Lemma update_port_maintains self0 kw st :
  maintained self0 kw st.2 -> maintained self0 kw (update_port kw st).2.
Proof. revert self0 kw st. maintained_tac. Qed.

Lemma update_baud_rate_maintains self0 kw st :
  maintained self0 kw st.2 ->
  maintained self0 kw (update_baud_rate kw st).2.
Proof. revert self0 kw st. maintained_tac. Qed.

Lemma update_parity_maintains self0 kw st :
  maintained self0 kw st.2 -> maintained self0 kw (update_parity kw st).2.
Proof. revert self0 kw st. maintained_tac. Qed.

Lemma update_stop_bits_maintains self0 kw st :
  maintained self0 kw st.2 ->
  maintained self0 kw (update_stop_bits kw st).2.
Proof. revert self0 kw st. maintained_tac. Qed.

Lemma update_byte_size_maintains self0 kw st :
  maintained self0 kw st.2 ->
  maintained self0 kw (update_byte_size kw st).2.
Proof. revert self0 kw st. maintained_tac. Qed.

(** C9, as the code has it: [update_settings] keeps parity, stop bits
    and byte size within their enumerated sets; the stored baud rate is
    the previous one or the integer that [int] read from the supplied
    value (any integer: there is no range check); the stored port is the
    previous one or one that the port enumeration matches; nothing else
    of the reader changes. *)
Theorem update_settings_keeps_fields_valid self kw :
  valid_settings (serial_reader self) ->
  valid_settings (serial_reader (update_settings self kw).2)
  /\ (baud_rate (serial_reader (update_settings self kw).2)
      = baud_rate (serial_reader self)
      \/ exists raw,
           kw !! "baud_rate" = Some raw
           /\ py_int raw
              = Some (baud_rate (serial_reader (update_settings self kw).2)))
  /\ (port (serial_reader (update_settings self kw).2)
      = port (serial_reader self)
      \/ grep (port (serial_reader (update_settings self kw).2)) <> [])
  /\ (update_settings self kw).2
     = set_serial_reader (serial_reader (update_settings self kw).2) self.
Proof.
  intros Hv. unfold update_settings.
  apply update_byte_size_maintains, update_stop_bits_maintains,
    update_parity_maintains, update_baud_rate_maintains,
    update_port_maintains.
  unfold maintained; simpl. split_and!; [done | by left | by left |].
  by destruct self.
Qed.

End ConfigurationStoreFacts.

(** ** The configuration store on concrete calls *)


(** C5 at a concrete call: [update_settings(parity='EVENN', stop_bits='3',
    byte_size='9', baud_rate='9k6')] on a fresh reader.  All four fields
    are rejected and the reader is unchanged, but only the baud-rate entry
    records the raw value: the parity entry records the lower-cased value,
    the stop-bits entry the [float] and the byte-size entry the [int]. *)
Theorem update_settings_given_value_is_converted :
  update_settings_ascii (default_reader "COM1") rejected_kwargs
  = (<["parity" :=
        {| given_value := PyStr "evenn";
           error := "Parity must be one of the following: 'none', 'odd', 'even', 'mark', 'space'" |}]>
     (<["stop_bits" :=
        {| given_value := PyFloat 3%float;
           error := "Stop bits must be one of the following: 1, 1.5, 2" |}]>
     (<["byte_size" :=
        {| given_value := PyInt 9;
           error := "Byte size must be one of the following: 5, 6, 7, 8" |}]>
     (<["baud_rate" :=
        {| given_value := PyStr "9k6";
           error := "Baud rate must be integer" |}]> ∅))),
     default_reader "COM1")
  /\ PyStr "evenn" <> PyStr "EVENN"
  /\ PyFloat 3%float <> PyStr "3"
  /\ PyInt 9 <> PyStr "9".
Proof.
  split; [vm_compute; reflexivity|].
  split_and!; discriminate.
Qed.

(** C8 at a concrete call: [update_and_get_settings(port='(')] on a fresh
    reader does not return the errors and the settings.  The port block
    hands the value to [list_ports.grep], which compiles it as a regular
    expression; the [re.error] is caught nowhere, so the call raises it,
    with or without other keyword arguments, and leaves the reader as it
    was.  The baud rate block catches the failure of its conversion: for
    [baud_rate='9k6'] the call returns both, with the error reported. *)
Theorem update_and_get_settings_raises_on_ill_formed_port :
  call_update_and_get_settings (rt := ascii_runtime) (default_reader "COM1")
    (<["port" := "("]> ∅)
  = (Raised ReError, default_reader "COM1")
  /\ call_update_and_get_settings (rt := ascii_runtime)
       (default_reader "COM1") (<["port" := "("]> accepted_kwargs)
     = (Raised ReError, default_reader "COM1")
  /\ call_update_and_get_settings (rt := ascii_runtime)
       (default_reader "COM1") (<["baud_rate" := "9k6"]> ∅)
     = (Returns
          {| errors :=
               <["baud_rate" :=
                  {| given_value := PyStr "9k6";
                     error := "Baud rate must be integer" |}]> ∅;
             settings := get_settings (default_reader "COM1") |},
        default_reader "COM1").
Proof. split_and!; vm_compute; reflexivity. Qed.

Lemma update_settings_applies_valid_witness :
  ((update_settings_ascii (default_reader "COM1") accepted_kwargs).1
     !! "stop_bits" = None
   /\ get_settings
        (update_settings_ascii (default_reader "COM1") accepted_kwargs).2
        !! "stop_bits" = Some (PyFloat 1.5%float))
  /\ ((update_settings_ascii (default_reader "COM1") accepted_kwargs).1
        !! "parity" = None
      /\ get_settings
           (update_settings_ascii (default_reader "COM1") accepted_kwargs).2
           !! "parity" = Some (PyStr "O"))
  /\ ((update_settings_ascii (default_reader "COM1") accepted_kwargs).1
        !! "byte_size" = None
      /\ get_settings
           (update_settings_ascii (default_reader "COM1") accepted_kwargs).2
           !! "byte_size" = Some (PyInt 8))
  /\ ((update_settings_ascii (default_reader "COM1") accepted_kwargs).1
        !! "baud_rate" = None
      /\ get_settings
           (update_settings_ascii (default_reader "COM1") accepted_kwargs).2
           !! "baud_rate" = Some (PyInt 19200)).
Proof.
  refine (conj _ (conj _ (conj _ _))).
  - apply (update_settings_applies_valid (rt := ascii_runtime)
             (default_reader "COM1")
             accepted_kwargs StopBits "1.5" (PyFloat 1.5%float));
      [reflexivity | reflexivity |].
    exists 1.5%float. split; [reflexivity | cbv [In]; tauto].
  - apply (update_settings_applies_valid (rt := ascii_runtime)
             (default_reader "COM1")
             accepted_kwargs Parity "Odd" (PyStr "O"));
      [reflexivity | reflexivity |].
    exists "O". split; [cbv [In]; tauto | reflexivity].
  - apply (update_settings_applies_valid (rt := ascii_runtime)
             (default_reader "COM1")
             accepted_kwargs ByteSize "8" (PyInt 8));
      [reflexivity | reflexivity |].
    exists 8. split; [reflexivity | split; [cbv [In]; tauto | reflexivity]].
  - apply (update_settings_applies_valid (rt := ascii_runtime)
             (default_reader "COM1")
             accepted_kwargs BaudRate "19200" (PyInt 19200));
      [reflexivity | reflexivity |].
    exists 19200. split; reflexivity.
Defined.

(** C9 as stated fails: [update_settings(baud_rate='-5')] on a fresh
    reader reports no error and stores the baud rate -5, which is not
    positive. *)
Lemma update_settings_stores_negative_baud_rate :
  valid_settings (serial_reader (default_reader "COM1"))
  /\ (update_settings_ascii (default_reader "COM1")
        (<["baud_rate" := "-5"]> ∅)).1 = ∅
  /\ baud_rate
       (serial_reader
          (update_settings_ascii (default_reader "COM1")
             (<["baud_rate" := "-5"]> ∅)).2) = -5
  /\ ~ 0 < baud_rate
             (serial_reader
                (update_settings_ascii (default_reader "COM1")
                   (<["baud_rate" := "-5"]> ∅)).2).
Proof.
  split_and!.
  - cbv; tauto.
  - vm_compute; reflexivity.
  - vm_compute; reflexivity.
  - vm_compute. discriminate.
Qed.

Lemma update_settings_keeps_fields_valid_witness :
  valid_settings (serial_reader (default_reader "COM1"))
  /\ valid_settings
       (serial_reader
          (update_settings_ascii (default_reader "COM1") accepted_kwargs).2).
Proof.
  assert (H : valid_settings (serial_reader (default_reader "COM1")))
    by (cbv; tauto).
  split; [exact H|].
  exact (proj1 (update_settings_keeps_fields_valid (rt := ascii_runtime)
                  (default_reader "COM1")
                  accepted_kwargs H)).
Defined.

(** * Properties of the scale transaction engine *)

Lemma bytes_eqb_refl (a : list byte) : bytes_eqb a a = true.
Proof.
  induction a as [|x a IH]; simpl; [reflexivity|].
  rewrite Byte.byte_dec_lb by reflexivity. exact IH.
Qed.

Lemma append_snoc (s t : string) (c : Ascii.ascii) :
  (s +:+ String c EmptyString) +:+ t = s +:+ String c t.
Proof.
  induction s as [|d s IH]; [reflexivity|].
  change (String d ((s +:+ String c EmptyString) +:+ t)
          = String d (s +:+ String c t)).
  f_equal. exact IH.
Qed.

Lemma append_empty (s : string) : s +:+ EmptyString = s.
Proof.
  induction s as [|d s IH]; [reflexivity|].
  change (String d (s +:+ EmptyString) = String d s). f_equal. exact IH.
Qed.

Lemma sleeps_app (a b : list event) :
  sleeps (a ++ b) = (sleeps a + sleeps b)%nat.
Proof.
  induction a as [|e a IH]; simpl; [reflexivity|].
  destruct e; simpl; rewrite IH; reflexivity.
Qed.

Lemma sleeps_io (evs : list event) :
  forallb is_io evs = true -> sleeps evs = O.
Proof.
  induction evs as [|e evs IH]; simpl; [reflexivity|].
  destruct e; simpl; try discriminate; exact IH.
Qed.


Lemma faults_app (a b : list event) : faults (a ++ b) = faults a ++ faults b.
Proof.
  induction a as [|e a IH]; simpl; [reflexivity|].
  destruct e; simpl; rewrite IH; reflexivity.
Qed.

Lemma In_EvFault_faults (msg : string) (tr : list event) :
  In (EvFault msg) tr -> In msg (faults tr).
Proof.
  induction tr as [|e tr IH]; simpl; [tauto|].
  intros [->|H]; [simpl; tauto|].
  destruct e; simpl; auto.
Qed.

Lemma decode_fault_app m (a b : list event) :
  decode_fault m (a ++ b) = decode_fault m a || decode_fault m b.
Proof. unfold decode_fault. apply existsb_app. Qed.

(** *** The inner loop *)

Local Arguments bytes_eqb : simpl never.

Local Arguments N.ltb : simpl never.

Lemma drain_byte m (b : byte) (rest : list rx) (out : string) :
  drain m (RxByte b :: rest) out
  = if bytes_eqb [b] m then (Stopped (ExitWeight out) rest, [EvRead b])
    else match decode_utf8 b with
         | None => (Stopped (ExitDecodeError b) rest, [EvRead b])
         | Some c =>
             ((drain m rest (out +:+ String c EmptyString)).1,
              EvRead b :: (drain m rest (out +:+ String c EmptyString)).2)
         end.
Proof.
  simpl. destruct (bytes_eqb [b] m); [reflexivity|].
  destruct (decode_utf8 b); [|reflexivity].
  by destruct (drain m rest _).
Qed.

Lemma decode_fault_read m (b : byte) (tr : list event) :
  decode_fault m (EvRead b :: tr)
  = negb (bytes_eqb [b] m) && negb (Byte.to_N b <? 128)%N
    || decode_fault m tr.
Proof. reflexivity. Qed.

(** Text bytes are all consumed and appended, decoded, to the output. *)
Lemma drain_text m (text : list byte) (rest : list rx) (out : string) :
  forallb (text_byte m) text = true ->
  drain m (map RxByte text ++ rest) out
  = ((drain m rest (out +:+ String.string_of_list_byte text)).1,
     map EvRead text
       ++ (drain m rest (out +:+ String.string_of_list_byte text)).2).
Proof.
  revert out. induction text as [|b text IH]; intros out H.
  - simpl. rewrite append_empty. by destruct (drain m rest out).
  - simpl in H. apply andb_true_iff in H as [Hb Ht].
    unfold text_byte in Hb. apply andb_true_iff in Hb as [Hm Hd].
    apply negb_true_iff in Hm.
    change (map RxByte (b :: text) ++ rest)
      with (RxByte b :: (map RxByte text ++ rest)).
    rewrite drain_byte, Hm. unfold decode_utf8. rewrite Hd.
    rewrite (IH _ Ht). cbn [fst snd].
    change (String.string_of_list_byte (b :: text))
      with (String (Ascii.ascii_of_byte b) (String.string_of_list_byte text)).
    rewrite append_snoc. reflexivity.
Qed.

(** What the inner loop can end with, and what its events then are. *)
Lemma drain_outcome m (items : list rx) (out : string) :
  forallb is_io (drain m items out).2 = true
  /\ match (drain m items out).1 with
     | Exhausted _ | Stopped (ExitWeight _) _ =>
         decode_fault m (drain m items out).2 = false
         /\ faults (drain m items out).2 = []
     | Stopped (ExitDecodeError _) _ =>
         decode_fault m (drain m items out).2 = true
         /\ faults (drain m items out).2 = []
     | Stopped (ExitSerialError msg) _ =>
         decode_fault m (drain m items out).2 = false
         /\ faults (drain m items out).2 = [msg]
     | Stopped ExitTimeout _ => False
     end.
Proof.
  revert out. induction items as [|it items IH]; intros out.
  - simpl. auto.
  - destruct it as [b|msg]; [|simpl; auto].
    rewrite drain_byte.
    destruct (bytes_eqb [b] m) eqn:Hm.
    + cbn [fst snd]. rewrite decode_fault_read, Hm. simpl. auto.
    + unfold decode_utf8.
      destruct (Byte.to_N b <? 128)%N eqn:Hlt; cbn [fst snd].
      * rewrite decode_fault_read, Hm, Hlt. simpl. apply IH.
      * rewrite decode_fault_read, Hm, Hlt. simpl. auto.
Qed.

(** A buffer of text bytes only is drained to the end. *)
Lemma drain_text_items m (items : list rx) (out : string) :
  forallb (text_item m) items = true ->
  exists out', (drain m items out).1 = Exhausted out'.
Proof.
  revert out. induction items as [|it items IH]; intros out H.
  - by eexists.
  - simpl in H. apply andb_true_iff in H as [Hb Ht].
    destruct it as [b|msg]; [|discriminate]. simpl in Hb.
    unfold text_byte in Hb. apply andb_true_iff in Hb as [Hm Hd].
    apply negb_true_iff in Hm.
    rewrite drain_byte, Hm. unfold decode_utf8. rewrite Hd. cbn [fst snd].
    apply IH, Ht.
Qed.

(** *** The poll loop *)

Lemma poll_S fuel self script out :
  poll (S fuel) self script out
  = if (max_wait_time_seconds self <? wait_time self)%float then
      Some {| run_exit := ExitTimeout;
              run_self := set_wait_time 0%float self;
              run_trace := [EvCheck (wait_time self)];
              run_unread := [] |}
    else
      match next_poll script with
      | (InWaitingFault msg, _) =>
          Some {| run_exit := ExitSerialError msg;
                  run_self :=
                    set_wait_time
                      (wait_time self + wait_interval_seconds self)%float self;
                  run_trace :=
                    [EvCheck (wait_time self);
                     EvSleep (wait_interval_seconds self); EvFault msg];
                  run_unread := [] |}
      | (Arrive items, script') =>
          match (drain (end_of_weight_char self) items out).1 with
          | Stopped e unread =>
              Some {| run_exit := e;
                      run_self :=
                        set_wait_time
                          (wait_time self + wait_interval_seconds self)%float
                          self;
                      run_trace :=
                        EvCheck (wait_time self)
                          :: EvSleep (wait_interval_seconds self)
                          :: (drain (end_of_weight_char self) items out).2;
                      run_unread := unread |}
          | Exhausted out' =>
              match
                poll fuel
                  (set_wait_time
                     (wait_time self + wait_interval_seconds self)%float self)
                  script' out'
              with
              | Some r =>
                  Some {| run_exit := run_exit r;
                          run_self := run_self r;
                          run_trace :=
                            EvCheck (wait_time self)
                              :: EvSleep (wait_interval_seconds self)
                              :: (drain (end_of_weight_char self) items out).2
                              ++ run_trace r;
                          run_unread := run_unread r |}
              | None => None
              end
          end
      end.
Proof.
  simpl. destruct (_ <? _)%float; [reflexivity|].
  destruct (next_poll script) as [[items|msg] script']; [|reflexivity].
  by destruct (drain (end_of_weight_char self) items out) as [[?|? ?] ?].
Qed.

(** The bound on the iterations does not show in the result: a loop
    that finishes within [fuel] iterations finishes the same way within
    any larger bound. *)
Lemma poll_fuel_mono fuel : forall fuel' self script out r,
  (fuel <= fuel')%nat ->
  poll fuel self script out = Some r ->
  poll fuel' self script out = Some r.
Proof.
  induction fuel as [|fuel IH]; intros fuel' self script out r Hle H;
    [discriminate|].
  destruct fuel' as [|fuel']; [lia|]. rewrite poll_S in *.
  destruct (_ <? _)%float; [exact H|].
  destruct (next_poll script) as [[items|msg] script']; [|exact H].
  destruct (drain (end_of_weight_char self) items out).1 as [out'|e unread];
    [|exact H].
  destruct (poll fuel _ script' out') as [r'|] eqn:Hp; [|discriminate].
  rewrite (IH fuel' _ _ _ _ ltac:(lia) Hp). exact H.
Qed.

Lemma read_weight_fuel_mono fuel fuel' self scale r :
  (fuel <= fuel')%nat ->
  read_weight fuel self scale = Some r ->
  read_weight fuel' self scale = Some r.
Proof.
  intros Hle. unfold read_weight.
  destruct (open_fault scale); [done|]. destruct (write_fault scale); [done|].
  destruct (poll fuel self (script scale) EmptyString) as [r'|] eqn:Hp;
    [|discriminate].
  by rewrite (poll_fuel_mono _ _ _ _ _ _ Hle Hp).
Qed.

(** The loop starts with the check of the accumulator it is entered
    with. *)
Lemma poll_first_check fuel self script out r :
  poll fuel self script out = Some r ->
  exists rest, run_trace r = EvCheck (wait_time self) :: rest.
Proof.
  destruct fuel as [|fuel]; [discriminate|]. rewrite poll_S.
  destruct (_ <? _)%float; [intros [= <-]; by eexists|].
  destruct (next_poll script) as [[items|msg] script'];
    [|intros [= <-]; by eexists].
  destruct (drain (end_of_weight_char self) items out).1 as [out'|e unread];
    [|intros [= <-]; by eexists].
  destruct (poll fuel _ script' out') as [r'|]; [|discriminate].
  intros [= <-]. by eexists.
Qed.

(** Trace and accumulator of a finished loop. *)
Lemma poll_structure fuel : forall self script out r,
  poll fuel self script out = Some r ->
  poll_trace (wait_interval_seconds self) (max_wait_time_seconds self)
    (wait_time self) (run_trace r)
  /\ run_self r = set_wait_time (wait_time (run_self r)) self
  /\ match run_exit r with
     | ExitTimeout => wait_time (run_self r) = 0%float
     | _ =>
         wait_time (run_self r)
         = elapsed (wait_interval_seconds self) (sleeps (run_trace r))
             (wait_time self)
         /\ (1 <= sleeps (run_trace r))%nat
     end.
Proof.
  induction fuel as [|fuel IH]; intros self script out r H; [discriminate|].
  rewrite poll_S in H.
  destruct (_ <? _)%float eqn:Hlt.
  { injection H as <-. simpl. split; [by constructor|]. by split. }
  destruct (next_poll script) as [[items|msg] script'].
  2:{ injection H as <-. simpl. split; [by constructor|]. split; [done|].
      split; [done|lia]. }
  destruct (drain_outcome (end_of_weight_char self) items out) as [Hio Ho].
  destruct (drain (end_of_weight_char self) items out).1 as [out'|e unread].
  - destruct (poll fuel _ script' out') as [r'|] eqn:Hp; [|discriminate].
    injection H as <-. apply IH in Hp as (Htr & Hself & Hw). simpl in *.
    split; [by constructor|]. split.
    { rewrite Hself at 1. reflexivity. }
    rewrite sleeps_app, (sleeps_io _ Hio). simpl.
    destruct (run_exit r'); [|done| |];
      (destruct Hw as [Hw _]; split; [exact Hw|lia]).
  - injection H as <-. simpl.
    split; [by constructor|]. split; [done|].
    rewrite (sleeps_io _ Hio). simpl.
    destruct e; try done; (split; [done|lia]).
Qed.

(** Decode faults and device faults of a finished loop. *)
Lemma poll_faults fuel : forall self script out r,
  poll fuel self script out = Some r ->
  match run_exit r with
  | ExitDecodeError _ =>
      decode_fault (end_of_weight_char self) (run_trace r) = true
      /\ faults (run_trace r) = []
  | ExitSerialError msg =>
      decode_fault (end_of_weight_char self) (run_trace r) = false
      /\ faults (run_trace r) = [msg]
  | _ =>
      decode_fault (end_of_weight_char self) (run_trace r) = false
      /\ faults (run_trace r) = []
  end.
Proof.
  induction fuel as [|fuel IH]; intros self script out r H; [discriminate|].
  rewrite poll_S in H.
  destruct (_ <? _)%float eqn:Hlt.
  { injection H as <-. simpl. auto. }
  destruct (next_poll script) as [[items|msg] script'].
  2:{ injection H as <-. simpl. auto. }
  destruct (drain_outcome (end_of_weight_char self) items out) as [Hio Ho].
  destruct (drain (end_of_weight_char self) items out).1 as [out'|e unread].
  - destruct (poll fuel _ script' out') as [r'|] eqn:Hp; [|discriminate].
    injection H as <-. apply IH in Hp. simpl in *.
    destruct Ho as [Hd Hf].
    change (decode_fault (end_of_weight_char self)
              (EvCheck (wait_time self)
                 :: EvSleep (wait_interval_seconds self)
                 :: (drain (end_of_weight_char self) items out).2
                 ++ run_trace r'))
      with (decode_fault (end_of_weight_char self)
              ((drain (end_of_weight_char self) items out).2
                 ++ run_trace r')).
    rewrite decode_fault_app, faults_app, Hd, Hf. simpl. exact Hp.
  - injection H as <-. simpl.
    change (decode_fault (end_of_weight_char self)
              (EvCheck (wait_time self)
                 :: EvSleep (wait_interval_seconds self)
                 :: (drain (end_of_weight_char self) items out).2))
      with (decode_fault (end_of_weight_char self)
              (drain (end_of_weight_char self) items out).2).
    destruct e; done.
Qed.

(** A scale that never sends the marker lets the loop run into the
    timeout: if the accumulator first exceeds the maximum after [n]
    sleeps, the loop ends there, after exactly [n] sleeps, with the
    accumulator reset. *)
Lemma poll_times_out n : forall fuel self script out,
  never_marker (end_of_weight_char self) script = true ->
  (forall j, (j < n)%nat ->
     (max_wait_time_seconds self
      <? elapsed (wait_interval_seconds self) j (wait_time self))%float
     = false) ->
  (max_wait_time_seconds self
   <? elapsed (wait_interval_seconds self) n (wait_time self))%float = true ->
  (n < fuel)%nat ->
  exists tr,
    poll fuel self script out
    = Some {| run_exit := ExitTimeout;
              run_self := set_wait_time 0%float self;
              run_trace := tr;
              run_unread := [] |}
    /\ sleeps tr = n.
Proof.
  induction n as [|n IH]; intros fuel self script out Hq Hbelow Habove Hfuel;
    (destruct fuel as [|fuel]; [lia|]); rewrite poll_S.
  - simpl in Habove. rewrite Habove. by eexists.
  - assert (H0 := Hbelow O ltac:(lia)). simpl in H0. rewrite H0.
    assert (exists items script',
               next_poll script = (Arrive items, script')
               /\ forallb (text_item (end_of_weight_char self)) items = true
               /\ never_marker (end_of_weight_char self) script' = true)
      as (items & script' & -> & Hitems & Hq').
    { destruct script as [|[items|msg] script']; simpl in *.
      - by exists [], [].
      - apply andb_true_iff in Hq as [? ?]. by exists items, script'.
      - discriminate. }
    destruct (drain_text_items _ items out Hitems) as [out' ->].
    destruct (drain_outcome (end_of_weight_char self) items out) as [Hio _].
    destruct (IH fuel
                (set_wait_time
                   (wait_time self + wait_interval_seconds self)%float self)
                script' out') as (tr & -> & Hn).
    + exact Hq'.
    + intros j Hj. apply (Hbelow (S j)). lia.
    + exact Habove.
    + lia.
    + eexists. split; [reflexivity|].
      simpl. rewrite sleeps_app, (sleeps_io _ Hio), Hn. reflexivity.
Qed.

(** *** [read_weight] *)

(** C1, as the code has it: when the call starts with the accumulator not
    above the maximum, the port opens and takes the command, and the first
    poll interval brings text bytes (none equal to the one-byte marker,
    each below [0x80]) followed by the marker, [read_weight] returns
    exactly those bytes decoded.  It stops at the marker: it sleeps once,
    reads the text bytes and the marker and nothing else, and leaves what
    follows the marker unread; the accumulator has grown by one
    interval. *)
Theorem read_weight_returns_text_before_marker
    fuel self scale (m : byte) (text : list byte) (rest : list rx) later :
  end_of_weight_char self = [m] ->
  (max_wait_time_seconds self <? wait_time self)%float = false ->
  open_fault scale = None ->
  write_fault scale = None ->
  script scale = Arrive (map RxByte text ++ RxByte m :: rest) :: later ->
  forallb (text_byte [m]) text = true ->
  read_weight (S fuel) self scale
  = Some {| run_exit := ExitWeight (String.string_of_list_byte text);
            run_self :=
              set_wait_time
                (wait_time self + wait_interval_seconds self)%float self;
            run_trace :=
              EvOpen :: EvWrite (read_weight_command self)
                :: EvCheck (wait_time self)
                :: EvSleep (wait_interval_seconds self)
                :: map EvRead text ++ [EvRead m; EvClose];
            run_unread := rest |}
  /\ (response ∘ run_exit) <$> read_weight (S fuel) self scale
     = Some (Return (String.string_of_list_byte text)).
Proof.
  intros Hm Hlt Hopen Hwrite Hscript Htext.
  assert (read_weight (S fuel) self scale
          = Some {| run_exit := ExitWeight (String.string_of_list_byte text);
                    run_self :=
                      set_wait_time
                        (wait_time self + wait_interval_seconds self)%float
                        self;
                    run_trace :=
                      EvOpen :: EvWrite (read_weight_command self)
                        :: EvCheck (wait_time self)
                        :: EvSleep (wait_interval_seconds self)
                        :: map EvRead text ++ [EvRead m; EvClose];
                    run_unread := rest |}) as ->; [|by split].
  unfold read_weight. rewrite Hopen, Hwrite, Hscript, poll_S, Hlt.
  cbn [next_poll]. rewrite Hm, (drain_text _ _ _ _ Htext).
  rewrite drain_byte, bytes_eqb_refl. cbn [fst snd run_exit run_self
    run_trace run_unread String.append].
  rewrite <- !app_comm_cons, <- app_assoc. reflexivity.
Qed.

(** C2, as the code has it: a scale that opens, takes the command and
    never sends the marker, nor anything else that would end the call (a
    fault of the device, a byte that is not text on its own), makes
    [read_weight] return the timeout message, word for word, with the
    accumulator reset to zero, at the first check that finds the
    accumulator above the maximum: if that is the check after [n] sleeps,
    [n] sleeps is what the call takes.  The reader it leaves has
    [wait_time = 0], and the first check of any later call on it is a
    check of zero: the next call starts timing from zero, not from where
    this one left off. *)
Theorem read_weight_times_out fuel self scale n :
  open_fault scale = None ->
  write_fault scale = None ->
  never_marker (end_of_weight_char self) (script scale) = true ->
  (forall j, (j < n)%nat ->
     (max_wait_time_seconds self
      <? elapsed (wait_interval_seconds self) j (wait_time self))%float
     = false) ->
  (max_wait_time_seconds self
   <? elapsed (wait_interval_seconds self) n (wait_time self))%float = true ->
  (n < fuel)%nat ->
  exists tr,
    read_weight fuel self scale
    = Some {| run_exit := ExitTimeout;
              run_self := set_wait_time 0%float self;
              run_trace := tr;
              run_unread := [] |}
    /\ sleeps tr = n
    /\ (fun r => response (run_exit r)) <$> read_weight fuel self scale
       = Some (Return "Scale response took too long, check connection and reconsider max_wait_time_seconds")
    /\ wait_time (set_wait_time 0%float self) = 0%float
    /\ forall fuel' scale' r',
         open_fault scale' = None ->
         write_fault scale' = None ->
         read_weight fuel' (set_wait_time 0%float self) scale' = Some r' ->
         exists rest,
           run_trace r'
           = EvOpen :: EvWrite (read_weight_command self)
               :: EvCheck 0%float :: rest.
Proof.
  intros Hopen Hwrite Hq Hbelow Habove Hfuel.
  destruct (poll_times_out n fuel self (script scale) EmptyString
              Hq Hbelow Habove Hfuel) as (tr & Hp & Hn).
  unfold read_weight. rewrite Hopen, Hwrite, Hp. simpl.
  eexists. split; [reflexivity|]. split; [|split; [done|split; [done|]]].
  - simpl. rewrite sleeps_app, Hn. simpl. lia.
  - intros fuel' scale' r' -> -> H.
    destruct (poll fuel' _ (script scale') EmptyString) as [r''|] eqn:Hp';
      [|discriminate].
    injection H as <-. apply poll_first_check in Hp' as [rest ->].
    by eexists.
Qed.

(** C3, as the code has it: once the port is open and has taken the
    command, the events of a call are those of the poll loop, framed by
    open/write and close; in the loop every iteration first checks the
    accumulator, then (the check not tripping) sleeps the fixed interval,
    and only then drains the buffer; the accumulator checked in the next
    iteration is the previous one plus the interval; when the call ends it
    is zero on the timeout path and the sum over all sleeps otherwise. *)
Theorem read_weight_checks_then_sleeps_then_drains fuel self scale r :
  open_fault scale = None ->
  write_fault scale = None ->
  read_weight fuel self scale = Some r ->
  exists body,
    run_trace r
    = EvOpen :: EvWrite (read_weight_command self) :: body ++ [EvClose]
    /\ poll_trace (wait_interval_seconds self) (max_wait_time_seconds self)
         (wait_time self) body
    /\ match run_exit r with
       | ExitTimeout => wait_time (run_self r) = 0%float
       | _ =>
           wait_time (run_self r)
           = elapsed (wait_interval_seconds self) (sleeps body)
               (wait_time self)
       end.
Proof.
  intros Hopen Hwrite H. unfold read_weight in H.
  rewrite Hopen, Hwrite in H.
  destruct (poll fuel self (script scale) EmptyString) as [r'|] eqn:Hp;
    [|discriminate].
  injection H as <-. simpl.
  destruct (poll_structure _ _ _ _ _ Hp) as (Htr & _ & Hw).
  exists (run_trace r'). split; [reflexivity|]. split; [exact Htr|].
  destruct (run_exit r'); tauto.
Qed.

(** A decode fault is not masked: a finished call that read a byte
    other than the marker that is not text on its own raises. *)
Lemma read_weight_decode_fault_raises fuel self scale r :
  read_weight fuel self scale = Some r ->
  decode_fault (end_of_weight_char self) (run_trace r) = true ->
  exists b, response (run_exit r) = RaiseUnicodeDecodeError b.
Proof.
  intros H. unfold read_weight in H.
  destruct (open_fault scale) as [omsg|].
  { injection H as <-. discriminate. }
  destruct (write_fault scale) as [wmsg|].
  { injection H as <-. discriminate. }
  destruct (poll fuel self (script scale) EmptyString) as [r'|] eqn:Hp;
    [|discriminate].
  injection H as <-. apply poll_faults in Hp.
  cbn [run_exit run_trace].
  assert (decode_fault (end_of_weight_char self)
            (EvOpen :: EvWrite (read_weight_command self)
               :: run_trace r' ++ [EvClose])
          = decode_fault (end_of_weight_char self) (run_trace r')) as ->.
  { change (decode_fault (end_of_weight_char self)
              (EvOpen :: EvWrite (read_weight_command self)
                 :: run_trace r' ++ [EvClose]))
      with (decode_fault (end_of_weight_char self)
              (run_trace r' ++ [EvClose])).
    rewrite decode_fault_app. simpl. apply orb_false_r. }
  destruct (run_exit r'); destruct Hp as [Hd _]; rewrite Hd; simpl;
    intros; discriminate || by eexists.
Qed.

(** Every fault of the device (on open, write, [in_waiting] or read) is
    answered with ["Error: "] followed by the fault's message. *)
Lemma read_weight_device_fault_answered fuel self scale r msg :
  read_weight fuel self scale = Some r ->
  In (EvFault msg) (run_trace r) ->
  response (run_exit r) = Return ("Error: " +:+ msg).
Proof.
  intros H. unfold read_weight in H.
  destruct (open_fault scale) as [omsg|].
  { injection H as <-. simpl. intros [[= <-]|[]]. reflexivity. }
  destruct (write_fault scale) as [wmsg|].
  { injection H as <-. simpl.
    intros [|[[= <-]|[|[]]]]; try discriminate. reflexivity. }
  destruct (poll fuel self (script scale) EmptyString) as [r'|] eqn:Hp;
    [|discriminate].
  injection H as <-. apply poll_faults in Hp.
  cbn [run_exit run_trace].
  intros Hin. apply In_EvFault_faults in Hin.
  change (faults (EvOpen :: EvWrite (read_weight_command self)
                    :: run_trace r' ++ [EvClose]))
    with (faults (run_trace r' ++ [EvClose])) in Hin.
  rewrite faults_app in Hin. simpl in Hin. rewrite app_nil_r in Hin.
  destruct (run_exit r'); destruct Hp as [_ Hf]; rewrite Hf in Hin;
    simpl in Hin; try tauto.
  destruct Hin as [->|[]]. reflexivity.
Qed.

(** C10, as the code has it: only the timeout path resets the
    accumulator.  On every other way out (weight returned, device fault
    answered with an error string, decode fault raised) the reader keeps
    the accumulator it came with plus one interval per sleep of the call,
    and nothing else of it changes.  A call that returns a weight has
    slept at least once.  A call whose port does not open, or does not
    take the command, answers with that fault and has not slept: the
    reader is as it was.  Once the command is written, every way out
    other than the timeout comes after at least one sleep. *)
Theorem read_weight_resets_only_on_timeout fuel self scale r :
  read_weight fuel self scale = Some r ->
  run_self r = set_wait_time (wait_time (run_self r)) self
  /\ match run_exit r with
     | ExitTimeout => wait_time (run_self r) = 0%float
     | ExitWeight _ =>
         wait_time (run_self r)
         = elapsed (wait_interval_seconds self) (sleeps (run_trace r))
             (wait_time self)
         /\ (1 <= sleeps (run_trace r))%nat
     | ExitSerialError _ | ExitDecodeError _ =>
         wait_time (run_self r)
         = elapsed (wait_interval_seconds self) (sleeps (run_trace r))
             (wait_time self)
     end
  /\ (forall msg,
        open_fault scale = Some msg
        \/ (open_fault scale = None /\ write_fault scale = Some msg) ->
        run_exit r = ExitSerialError msg
        /\ sleeps (run_trace r) = 0%nat
        /\ run_self r = self)
  /\ (open_fault scale = None ->
      write_fault scale = None ->
      run_exit r <> ExitTimeout ->
      (1 <= sleeps (run_trace r))%nat).
Proof.
  intros H. unfold read_weight in H.
  destruct (open_fault scale) as [omsg|].
  { injection H as <-. simpl. split; [by destruct self|].
    split; [reflexivity|]. split; [|discriminate].
    by intros msg [[= <-]|[[=] _]]. }
  destruct (write_fault scale) as [wmsg|].
  { injection H as <-. simpl. split; [by destruct self|].
    split; [reflexivity|]. split; [|discriminate].
    by intros msg [[=]|[_ [= <-]]]. }
  destruct (poll fuel self (script scale) EmptyString) as [r'|] eqn:Hp;
    [|discriminate].
  injection H as <-. cbn [run_exit run_self run_trace].
  destruct (poll_structure _ _ _ _ _ Hp) as (_ & Hself & Hw).
  split; [exact Hself|].
  assert (sleeps (EvOpen :: EvWrite (read_weight_command self)
                    :: run_trace r' ++ [EvClose])
          = sleeps (run_trace r')) as ->.
  { simpl. rewrite sleeps_app. simpl. lia. }
  split; [destruct (run_exit r'); tauto|].
  split; [by intros msg [[=]|[_ [=]]]|].
  intros _ _ Hexit. destruct (run_exit r'); tauto.
Qed.

(** ** The transaction engine on concrete calls *)


Lemma read_weight_returns_text_before_marker_witness :
  read_weight 1 (default_reader "COM1") answer_123 = Some answered_run.
Proof.
  exact (proj1 (read_weight_returns_text_before_marker
                  0 (default_reader "COM1") answer_123 x03 [x31; x32; x33]
                  [RxByte x34] [] eq_refl eq_refl eq_refl eq_refl eq_refl
                  eq_refl)).
Defined.

(** C1 as stated fails: a fresh reader is called eight times, and each
    time the scale sends ["123"] and the marker within the first poll
    interval.  Seven calls return ["123"] and leave the accumulator at
    1.75; the eighth returns the timeout message without sleeping or
    reading. *)
Lemma read_weight_eighth_answered_call_times_out :
  read_weights 1 (default_reader "COM1") (List.repeat answer_123 7)
  = Some (List.repeat (Return "123") 7,
          set_wait_time 1.75%float (default_reader "COM1"))
  /\ read_weight 1 (set_wait_time 1.75%float (default_reader "COM1"))
       answer_123
     = Some {| run_exit := ExitTimeout;
               run_self := default_reader "COM1";
               run_trace :=
                 [EvOpen; EvWrite [x57; x0d]; EvCheck 1.75%float; EvClose];
               run_unread := [] |}
  /\ response ExitTimeout <> Return "123".
Proof.
  split; [vm_compute; reflexivity|].
  split; [vm_compute; reflexivity|].
  discriminate.
Qed.


(** C2 as stated fails, with maximum 0.5 and interval 0.25, on a scale
    that never sends the marker.  If the scale is lost during the third
    poll interval, the accumulator is 0.75 by then, above the maximum,
    but the call answers with the error string and resets nothing: it is
    the next call that times out, at once.  Likewise if the only byte the
    scale sends, at that moment, is [0xC3]: the call raises and resets
    nothing.  And when the scale stays silent the call times out at the
    check after the third sleep, not the second: the check is strict and
    comes before the sleep, so those after one and two sleeps see 0.25
    and 0.5. *)
Lemma read_weight_fault_above_maximum_keeps_accumulator :
  sends_marker (end_of_weight_char impatient_reader) (script lost_later)
  = false
  /\ sends_marker (end_of_weight_char impatient_reader)
       (script garbled_later) = false
  /\ read_weight 4 impatient_reader lost_later
     = Some {| run_exit := ExitSerialError "device disconnected";
               run_self := set_wait_time 0.75%float impatient_reader;
               run_trace :=
                 [EvOpen; EvWrite [x57; x0d];
                  EvCheck 0%float; EvSleep 0.25%float;
                  EvCheck 0.25%float; EvSleep 0.25%float;
                  EvCheck 0.5%float; EvSleep 0.25%float;
                  EvFault "device disconnected"; EvClose];
               run_unread := [] |}
  /\ read_weight 4 impatient_reader garbled_later
     = Some {| run_exit := ExitDecodeError xc3;
               run_self := set_wait_time 0.75%float impatient_reader;
               run_trace :=
                 [EvOpen; EvWrite [x57; x0d];
                  EvCheck 0%float; EvSleep 0.25%float;
                  EvCheck 0.25%float; EvSleep 0.25%float;
                  EvCheck 0.5%float; EvSleep 0.25%float;
                  EvRead xc3; EvClose];
               run_unread := [] |}
  /\ (max_wait_time_seconds impatient_reader <? 0.75)%float = true
  /\ response (ExitSerialError "device disconnected")
     = Return "Error: device disconnected"
  /\ response (ExitDecodeError xc3) = RaiseUnicodeDecodeError xc3
  /\ read_weight 4 (set_wait_time 0.75%float impatient_reader) answer_123
     = Some {| run_exit := ExitTimeout;
               run_self := impatient_reader;
               run_trace :=
                 [EvOpen; EvWrite [x57; x0d]; EvCheck 0.75%float; EvClose];
               run_unread := [] |}
  /\ read_weight 4 impatient_reader silent
     = Some {| run_exit := ExitTimeout;
               run_self := impatient_reader;
               run_trace :=
                 [EvOpen; EvWrite [x57; x0d];
                  EvCheck 0%float; EvSleep 0.25%float;
                  EvCheck 0.25%float; EvSleep 0.25%float;
                  EvCheck 0.5%float; EvSleep 0.25%float;
                  EvCheck 0.75%float; EvClose];
               run_unread := [] |}.
Proof. split_and!; vm_compute; reflexivity. Qed.

Lemma read_weight_times_out_witness :
  (exists tr,
     read_weight 4 impatient_reader silent
     = Some {| run_exit := ExitTimeout;
               run_self := set_wait_time 0%float impatient_reader;
               run_trace := tr;
               run_unread := [] |}
     /\ sleeps tr = 3%nat
     /\ (fun r => response (run_exit r))
          <$> read_weight 4 impatient_reader silent
        = Some (Return "Scale response took too long, check connection and reconsider max_wait_time_seconds")
     /\ wait_time (set_wait_time 0%float impatient_reader) = 0%float
     /\ forall fuel' scale' r',
          open_fault scale' = None ->
          write_fault scale' = None ->
          read_weight fuel' (set_wait_time 0%float impatient_reader) scale'
          = Some r' ->
          exists rest,
            run_trace r'
            = EvOpen :: EvWrite (read_weight_command impatient_reader)
                :: EvCheck 0%float :: rest)
  /\ read_weights 4 impatient_reader [silent; silent]
     = Some ([Return TIMEOUT_MESSAGE; Return TIMEOUT_MESSAGE],
             impatient_reader).
Proof.
  split.
  - apply (read_weight_times_out 4 impatient_reader silent 3);
      try reflexivity; [|lia].
    intros j Hj. destruct j as [|[|[|j]]]; [reflexivity..|lia].
  - vm_compute; reflexivity.
Defined.

(** C3 as stated fails: the check of the accumulator comes before the
    sleep, not after it.  A call that starts with the accumulator above
    the maximum checks it and returns without sleeping at all; and the
    first check of any call has no sleep before it. *)
Lemma read_weight_checks_before_sleeping :
  read_weight 1 (set_wait_time 1.75%float (default_reader "COM1")) silent
  = Some {| run_exit := ExitTimeout;
            run_self := default_reader "COM1";
            run_trace :=
              [EvOpen; EvWrite [x57; x0d]; EvCheck 1.75%float; EvClose];
            run_unread := [] |}
  /\ sleep_then_check false
       [EvOpen; EvWrite [x57; x0d]; EvCheck 1.75%float; EvClose] = false
  /\ read_weight 1 (default_reader "COM1") answer_123 = Some answered_run
  /\ sleep_then_check false (run_trace answered_run) = false.
Proof. split_and!; vm_compute; reflexivity. Qed.

Lemma read_weight_checks_then_sleeps_then_drains_witness :
  exists body,
    run_trace answered_run = EvOpen :: EvWrite [x57; x0d] :: body ++ [EvClose]
    /\ poll_trace 0.25%float 1.5%float 0%float body
    /\ wait_time (run_self answered_run)
       = elapsed 0.25%float (sleeps body) 0%float.
Proof.
  exact (read_weight_checks_then_sleeps_then_drains
           1 (default_reader "COM1") answer_123 answered_run
           eq_refl eq_refl eq_refl).
Defined.


(** C4 at a concrete call: the scale sends the two bytes of a UTF-8
    encoded e-acute and the marker within the first poll interval.  The
    bytes before the marker are valid text, yet the call raises
    [UnicodeDecodeError]: [decode] is applied to each byte on its own, not
    to the bytes accumulated, and the first one is not text by itself. *)
Theorem read_weight_raises_on_valid_utf8 :
  utf8_valid [xc3; xa9] = true
  /\ read_weight 1 (default_reader "COM1") (answering [xc3; xa9; x03])
     = Some {| run_exit := ExitDecodeError xc3;
               run_self := set_wait_time 0.25%float (default_reader "COM1");
               run_trace :=
                 [EvOpen; EvWrite [x57; x0d]; EvCheck 0%float;
                  EvSleep 0.25%float; EvRead xc3; EvClose];
               run_unread := [RxByte xa9; RxByte x03] |}
  /\ response (ExitDecodeError xc3) = RaiseUnicodeDecodeError xc3.
Proof. split_and!; vm_compute; reflexivity. Qed.

(** C10 as stated fails: a fresh reader whose port cannot be opened
    answers with the error string and keeps the accumulator at zero, so
    the next call does not start with a nonzero value. *)
Lemma read_weight_open_fault_keeps_zero :
  read_weight 1 (default_reader "COM1") unplugged = Some refused_run
  /\ response (run_exit refused_run)
     = Return "Error: could not open port 'COM1'"
  /\ wait_time (run_self refused_run) = 0%float.
Proof. split_and!; vm_compute; reflexivity. Qed.

Lemma read_weight_resets_only_on_timeout_witness :
  ((run_self answered_run
    = set_wait_time (wait_time (run_self answered_run))
        (default_reader "COM1")
    /\ wait_time (run_self answered_run)
       = elapsed 0.25%float (sleeps (run_trace answered_run)) 0%float
       /\ (1 <= sleeps (run_trace answered_run))%nat)
   /\ wait_time (run_self answered_run) = 0.25%float)
  /\ (run_exit refused_run = ExitSerialError "could not open port 'COM1'"
      /\ sleeps (run_trace refused_run) = 0%nat
      /\ run_self refused_run = default_reader "COM1")
  /\ (run_exit jammed_run = ExitSerialError "Write timeout"
      /\ sleeps (run_trace jammed_run) = 0%nat
      /\ run_self jammed_run = default_reader "COM1").
Proof.
  split; [split; [|reflexivity]|split].
  - pose proof (read_weight_resets_only_on_timeout
                  1 (default_reader "COM1") answer_123 answered_run eq_refl)
      as H.
    exact (conj (proj1 H) (proj1 (proj2 H))).
  - exact (proj1 (proj2 (proj2 (read_weight_resets_only_on_timeout
                                  1 (default_reader "COM1") unplugged
                                  refused_run eq_refl)))
             "could not open port 'COM1'" (or_introl eq_refl)).
  - exact (proj1 (proj2 (proj2 (read_weight_resets_only_on_timeout
                                  1 (default_reader "COM1") jammed
                                  jammed_run eq_refl)))
             "Write timeout" (or_intror (conj eq_refl eq_refl))).
Defined.

(** * Further properties of the port configuration store *)

Lemma field_of_key (fld : field) : field_of (key fld) = Some fld.
Proof. by destruct fld. Qed.

Lemma field_of_Some (k : string) (fld : field) :
  field_of k = Some fld -> k = key fld.
Proof.
  unfold field_of.
  repeat match goal with
         | |- context [String.eqb k ?c] =>
             destruct (String.eqb_spec k c); [intros [= <-]; by subst|]
         end.
  discriminate.
Qed.

Lemma field_of_None (k : string) (fld : field) :
  field_of k = None -> k <> key fld.
Proof. intros H ->. by rewrite field_of_key in H. Qed.

Lemma truthy_false (s : string) : truthy s = false -> s = EmptyString.
Proof. by destruct s. Qed.

(** [get_settings] under each of its keys. *)
Lemma get_settings_lookup self (fld : field) :
  get_settings self !! key fld
  = Some match fld with
         | Port => PyStr (port (serial_reader self))
         | BaudRate => PyInt (baud_rate (serial_reader self))
         | Parity => PyStr (parity (serial_reader self))
         | StopBits => stop_bits (serial_reader self)
         | ByteSize => PyInt (bytesize (serial_reader self))
         end.
Proof. by destruct fld. Qed.

Lemma get_settings_other self (k : string) :
  field_of k = None -> get_settings self !! k = None.
Proof.
  intros H. unfold get_settings.
  rewrite !lookup_insert_ne; [apply lookup_empty|..];
    apply not_eq_sym.
  - apply (field_of_None k Port H).
  - apply (field_of_None k BaudRate H).
  - apply (field_of_None k Parity H).
  - apply (field_of_None k StopBits H).
  - apply (field_of_None k ByteSize H).
Qed.

Lemma get_settings_inj self1 self2 :
  get_settings self1 = get_settings self2 ->
  serial_reader self1 = serial_reader self2.
Proof.
  intros H.
  pose proof (get_settings_lookup self1 Port) as H1.
  pose proof (get_settings_lookup self1 BaudRate) as H2.
  pose proof (get_settings_lookup self1 Parity) as H3.
  pose proof (get_settings_lookup self1 StopBits) as H4.
  pose proof (get_settings_lookup self1 ByteSize) as H5.
  rewrite H, get_settings_lookup in H1, H2, H3, H4, H5.
  destruct (serial_reader self1), (serial_reader self2); simpl in *.
  congruence.
Qed.

Section ConfigurationStoreMore.

Context {rt : Runtime}.

Ltac through :=
  repeat first
    [ rewrite (block_errors _ _ update_port_block) by done
    | rewrite (block_errors _ _ update_baud_rate_block) by done
    | rewrite (block_errors _ _ update_parity_block) by done
    | rewrite (block_errors _ _ update_stop_bits_block) by done
    | rewrite (block_errors _ _ update_byte_size_block) by done
    | rewrite (block_settings _ _ update_port_block) by done
    | rewrite (block_settings _ _ update_baud_rate_block) by done
    | rewrite (block_settings _ _ update_parity_block) by done
    | rewrite (block_settings _ _ update_stop_bits_block) by done
    | rewrite (block_settings _ _ update_byte_size_block) by done ].

Ltac rejects_tac :=
  unfold rejects, applied, rejection, update_port, update_baud_rate,
    update_parity, update_stop_bits, update_byte_size;
  simpl; intros kw [errs self] raw H Ht Ha; rewrite H, Ht; simpl;
  repeat case_match; simplify_eq/=; try congruence;
  by rewrite lookup_insert_eq.

Lemma update_port_rejects : rejects Port update_port.
Proof. rejects_tac. Qed.

Lemma update_baud_rate_rejects : rejects BaudRate update_baud_rate.
Proof. rejects_tac. Qed.

Lemma update_parity_rejects : rejects Parity update_parity.
Proof. rejects_tac. Qed.

Lemma update_stop_bits_rejects : rejects StopBits update_stop_bits.
Proof. rejects_tac. Qed.

Lemma update_byte_size_rejects : rejects ByteSize update_byte_size.
Proof. rejects_tac. Qed.

Lemma update_settings_rejection self kw fld raw :
  kw !! key fld = Some raw ->
  truthy raw = true ->
  applied fld raw = None ->
  (update_settings self kw).1 !! key fld = Some (rejection fld raw).
Proof.
  intros H Ht Ha. unfold update_settings. destruct fld; unfold key in *.
  - through. by apply update_port_rejects.
  - through. by apply update_baud_rate_rejects.
  - through. by apply update_parity_rejects.
  - through. by apply update_stop_bits_rejects.
  - by apply update_byte_size_rejects.
Qed.

(** The error dictionary, key by key. *)
Lemma update_settings_errors self kw k :
  (update_settings self kw).1 !! k = verdict kw k.
Proof.
  unfold verdict. destruct (field_of k) as [fld|] eqn:Hf.
  - apply field_of_Some in Hf as ->.
    destruct (kw !! key fld) as [raw|] eqn:Hk.
    + destruct (truthy raw) eqn:Ht.
      * pose proof (update_settings_field self kw fld raw Hk Ht) as Hfld.
        destruct (applied fld raw) eqn:Ha; [apply Hfld|].
        by apply update_settings_rejection.
      * apply truthy_false in Ht as ->.
        apply update_settings_untouched. by right.
    + apply update_settings_untouched. by left.
  - assert (Hne := fun fld => field_of_None k fld Hf).
    pose proof (Hne Port). pose proof (Hne BaudRate). pose proof (Hne Parity).
    pose proof (Hne StopBits). pose proof (Hne ByteSize). unfold key in *.
    unfold update_settings. through.
    by destruct (kw !! k).
Qed.

(** The settings after the call, key by key. *)
Lemma update_settings_shown self kw k :
  get_settings (update_settings self kw).2 !! k
  = shown kw k (get_settings self !! k).
Proof.
  unfold shown. destruct (field_of k) as [fld|] eqn:Hf.
  - apply field_of_Some in Hf as ->.
    destruct (kw !! key fld) as [raw|] eqn:Hk.
    + destruct (truthy raw) eqn:Ht.
      * pose proof (update_settings_field self kw fld raw Hk Ht) as Hfld.
        destruct (applied fld raw) eqn:Ha; apply Hfld.
      * apply truthy_false in Ht as ->.
        apply update_settings_untouched. by right.
    + apply update_settings_untouched. by left.
  - rewrite !get_settings_other by done. by destruct (kw !! k).
Qed.

(** Only the port attributes of the reader change. *)
Lemma update_settings_rest self kw :
  (update_settings self kw).2
  = set_serial_reader (serial_reader (update_settings self kw).2) self.
Proof.
  unfold update_settings.
  destruct (block_rest _ _ update_byte_size_block kw
    (update_stop_bits kw (update_parity kw (update_baud_rate kw
       (update_port kw (∅, self)))))) as [sr5 ->].
  destruct (block_rest _ _ update_stop_bits_block kw
    (update_parity kw (update_baud_rate kw
       (update_port kw (∅, self))))) as [sr4 ->].
  destruct (block_rest _ _ update_parity_block kw
    (update_baud_rate kw (update_port kw (∅, self)))) as [sr3 ->].
  destruct (block_rest _ _ update_baud_rate_block kw
    (update_port kw (∅, self))) as [sr2 ->].
  destruct (block_rest _ _ update_port_block kw (∅, self)) as [sr1 ->].
  reflexivity.
Qed.

End ConfigurationStoreMore.

Section ConfigurationStoreUse.

Context {rt : Runtime}.

Lemma not_recognised (k : string) :
  ~ In k recognised_keys -> field_of k = None.
Proof.
  intros H. unfold field_of.
  repeat match goal with
         | |- context [String.eqb k ?c] =>
             destruct (String.eqb_spec k c);
             [subst; exfalso; apply H; cbv [In recognised_keys]; tauto|]
         end.
  reflexivity.
Qed.

(** The five blocks read no key other than their own: with such a key
    added, with any value, or removed, they record the same errors and
    leave the same reader. *)
Lemma update_settings_other_keys self kw (k v : string) :
  ~ In k recognised_keys ->
  update_settings self (<[k := v]> kw) = update_settings self kw
  /\ update_settings self (delete k kw) = update_settings self kw.
Proof.
  intros H. apply not_recognised in H.
  assert (Hne := fun fld => field_of_None k fld H).
  pose proof (Hne Port). pose proof (Hne BaudRate). pose proof (Hne Parity).
  pose proof (Hne StopBits). pose proof (Hne ByteSize). unfold key in *.
  unfold update_settings. split.
  - rewrite (block_reads _ _ update_port_block (<[k:=v]> kw) kw)
      by by rewrite lookup_insert_ne.
    rewrite (block_reads _ _ update_baud_rate_block (<[k:=v]> kw) kw)
      by by rewrite lookup_insert_ne.
    rewrite (block_reads _ _ update_parity_block (<[k:=v]> kw) kw)
      by by rewrite lookup_insert_ne.
    rewrite (block_reads _ _ update_stop_bits_block (<[k:=v]> kw) kw)
      by by rewrite lookup_insert_ne.
    by rewrite (block_reads _ _ update_byte_size_block (<[k:=v]> kw) kw)
      by by rewrite lookup_insert_ne.
  - rewrite (block_reads _ _ update_port_block (delete k kw) kw)
      by by rewrite lookup_delete_ne.
    rewrite (block_reads _ _ update_baud_rate_block (delete k kw) kw)
      by by rewrite lookup_delete_ne.
    rewrite (block_reads _ _ update_parity_block (delete k kw) kw)
      by by rewrite lookup_delete_ne.
    rewrite (block_reads _ _ update_stop_bits_block (delete k kw) kw)
      by by rewrite lookup_delete_ne.
    by rewrite (block_reads _ _ update_byte_size_block (delete k kw) kw)
      by by rewrite lookup_delete_ne.
Qed.

(** X2: the error dictionary has an entry under a key exactly when the
    key is one of the five recognised ones and the call supplies a
    non-empty value for it that the field's validation rejects. *)
Theorem update_settings_error_iff self kw (k : string) :
  is_Some ((update_settings self kw).1 !! k)
  <-> exists fld raw,
        k = key fld /\ kw !! k = Some raw /\ truthy raw = true
        /\ applied fld raw = None.
Proof.
  rewrite update_settings_errors. unfold verdict. split.
  - destruct (field_of k) as [fld|] eqn:Hf; [|by intros [? ?]].
    apply field_of_Some in Hf as ->.
    destruct (kw !! key fld) as [raw|]; [|by intros [? ?]].
    destruct (truthy raw) eqn:Ht; [|by intros [? ?]].
    destruct (applied fld raw) eqn:Ha; [by intros [? ?]|].
    intros _. by exists fld, raw.
  - intros (fld & raw & -> & Hk & Ht & Ha).
    rewrite field_of_key, Hk, Ht, Ha. by eexists.
Qed.


(** X4: the errors that a call returns depend on the call alone, not on
    the settings the reader has when it is made. *)
Theorem update_settings_errors_of_call self1 self2 kw :
  (update_settings self1 kw).1 = (update_settings self2 kw).1.
Proof. apply map_eq. intros k. by rewrite !update_settings_errors. Qed.

(** X5: making the same call twice is the same as making it once: the
    second call returns the same errors and leaves the reader as the
    first one left it. *)
Theorem update_settings_idempotent self kw :
  update_settings (update_settings self kw).2 kw = update_settings self kw.
Proof.
  apply injective_projections.
  - apply map_eq. intros k. by rewrite !update_settings_errors.
  - rewrite update_settings_rest.
    assert (get_settings (update_settings (update_settings self kw).2 kw).2
            = get_settings (update_settings self kw).2) as H.
    { apply map_eq. intros k. rewrite !update_settings_shown.
      unfold shown. destruct (field_of k); [|done].
      destruct (kw !! k) as [raw|]; [|done].
      destruct (truthy raw); [|done]. by destruct (applied f raw). }
    apply get_settings_inj in H. rewrite H.
    by destruct (update_settings self kw).2.
Qed.

(** What the blocks do to one field depends only on what the mapping
    holds for that field. *)
Lemma update_settings_one_field self kw1 kw2 fld :
  kw1 !! key fld = kw2 !! key fld ->
  (update_settings self kw1).1 !! key fld
  = (update_settings self kw2).1 !! key fld
  /\ get_settings (update_settings self kw1).2 !! key fld
     = get_settings (update_settings self kw2).2 !! key fld.
Proof.
  intros H. rewrite !update_settings_errors, !update_settings_shown.
  unfold verdict, shown. by rewrite H.
Qed.

(** X8: the parity that [get_settings] shows is not a value that
    [update_settings] accepts.  The reader stores pyserial's one-letter
    constant, the validation looks the lower-cased value up among the
    names none, odd, even, mark, space: feeding the stored parity back is
    reported as an error (recording the lower-cased letter) and changes
    nothing.  [str.lower] is only assumed to lower-case the five
    constants as it does for ASCII. *)
Theorem update_settings_rejects_stored_parity self :
  (forall c,
     In c [PARITY_NONE; PARITY_ODD; PARITY_EVEN; PARITY_MARK; PARITY_SPACE] ->
     py_lower c = ascii_lower c) ->
  In (parity (serial_reader self))
     [PARITY_NONE; PARITY_ODD; PARITY_EVEN; PARITY_MARK; PARITY_SPACE] ->
  update_settings self (<["parity" := parity (serial_reader self)]> ∅)
  = (<["parity" :=
        {| given_value := PyStr (ascii_lower (parity (serial_reader self)));
           error := "Parity must be one of the following: 'none', 'odd', 'even', 'mark', 'space'" |}]>
       ∅,
     self).
Proof.
  intros Hlow Hin.
  set (kw := <["parity" := parity (serial_reader self)]> ∅ : gmap string string).
  assert (Hk : kw !! key Parity = Some (parity (serial_reader self)))
    by apply lookup_insert_eq.
  assert (Ht : truthy (parity (serial_reader self)) = true).
  { cbv [In] in Hin.
    repeat (destruct Hin as [<-|Hin]; [reflexivity|]). done. }
  assert (Ha : applied Parity (parity (serial_reader self)) = None).
  { unfold applied. rewrite (Hlow _ Hin). cbv [In] in Hin.
    repeat (destruct Hin as [<-|Hin]; [reflexivity|]). done. }
  apply injective_projections; simpl.
  - apply map_eq. intros k. rewrite update_settings_errors. unfold verdict.
    destruct (decide (k = "parity")) as [->|Hne].
    + change (field_of "parity") with (Some Parity).
      change "parity" with (key Parity) at 1. rewrite Hk, Ht, Ha.
      rewrite lookup_insert_eq. unfold rejection.
      by rewrite (Hlow _ Hin).
    + rewrite lookup_insert_ne by done. rewrite lookup_empty.
      unfold kw. rewrite lookup_insert_ne by done. rewrite lookup_empty.
      by destruct (field_of k).
  - rewrite update_settings_rest.
    assert (get_settings (update_settings self kw).2 = get_settings self)
      as H.
    { apply map_eq. intros k. rewrite update_settings_shown. unfold shown.
      destruct (decide (k = "parity")) as [->|Hne].
      - change (field_of "parity") with (Some Parity).
        change "parity" with (key Parity) at 1. by rewrite Hk, Ht, Ha.
      - unfold kw. rewrite lookup_insert_ne by done. rewrite lookup_empty.
        by destruct (field_of k). }
    apply get_settings_inj in H. rewrite H. by destruct self.
Qed.

(** For two mappings with no key in common, the blocks run on both at
    once do what they do on the first and then on the second. *)
Lemma update_settings_union self kw1 kw2 :
  kw1 ##ₘ kw2 ->
  update_settings self (kw1 ∪ kw2)
  = ((update_settings self kw1).1
       ∪ (update_settings (update_settings self kw1).2 kw2).1,
     (update_settings (update_settings self kw1).2 kw2).2).
Proof.
  intros Hdisj.
  assert (Hl : forall k raw, kw1 !! k = Some raw ->
                 (kw1 ∪ kw2) !! k = Some raw /\ kw2 !! k = None).
  { intros k raw H. split; [by apply lookup_union_Some_l|].
    by apply (map_disjoint_Some_l kw1 kw2 k raw). }
  assert (Hr : forall k, kw1 !! k = None -> (kw1 ∪ kw2) !! k = kw2 !! k).
  { intros k H. by apply lookup_union_r. }
  apply injective_projections; simpl.
  - apply map_eq. intros k.
    rewrite lookup_union, !update_settings_errors. unfold verdict.
    destruct (field_of k) as [fld|]; [|done].
    destruct (kw1 !! k) as [raw|] eqn:H1.
    + destruct (Hl k raw H1) as [-> ->].
      destruct (truthy raw); [|done]. by destruct (applied fld raw).
    + rewrite (Hr k H1). destruct (kw2 !! k) as [raw|]; [|done].
      destruct (truthy raw); [|done]. by destruct (applied fld raw).
  - assert (get_settings (update_settings self (kw1 ∪ kw2)).2
            = get_settings
                (update_settings (update_settings self kw1).2 kw2).2) as H.
    { apply map_eq. intros k. rewrite !update_settings_shown.
      unfold shown. destruct (field_of k) as [fld|]; [|done].
      destruct (kw1 !! k) as [raw|] eqn:H1.
      - destruct (Hl k raw H1) as [-> ->]. done.
      - rewrite (Hr k H1). done. }
    apply get_settings_inj in H.
    rewrite (update_settings_rest self (kw1 ∪ kw2)), H.
    pose proof (update_settings_rest self kw1) as E1.
    pose proof (update_settings_rest (update_settings self kw1).2 kw2) as E2.
    set (s1 := (update_settings self kw1).2) in *.
    set (s2 := (update_settings s1 kw2).2) in *.
    clearbody s2. clearbody s1.
    rewrite E2 at 2. rewrite E1. reflexivity.
Qed.

End ConfigurationStoreUse.

(** X7: [get_settings] reports exactly the five keys and loses nothing:
    two readers show the same settings exactly when their port attributes
    are the same. *)
Theorem get_settings_complete self1 self2 :
  dom (get_settings self1) = list_to_set recognised_keys
  /\ (get_settings self1 = get_settings self2
      <-> serial_reader self1 = serial_reader self2).
Proof.
  split.
  - unfold get_settings. rewrite !dom_insert_L, dom_empty_L.
    unfold recognised_keys. simpl. set_solver.
  - split; [apply get_settings_inj|].
    unfold get_settings. by intros ->.
Qed.

(** * Properties of the calls of the configuration store *)

Section ConfigurationStoreCalls.

Context {rt : Runtime}.

(** A call raises nothing exactly when no keyword is named [self] and the
    port, if one is supplied and not empty, is a well-formed pattern. *)
Lemma raised_by_None kw :
  raised_by kw = None
  <-> kw !! "self" = None
      /\ forall raw, kw !! "port" = Some raw ->
           truthy raw = true -> ill_formed raw = false.
Proof.
  unfold raised_by. destruct (kw !! "self") as [v|].
  { split; [discriminate|]. by intros [? _]. }
  destruct (kw !! "port") as [raw|]; [|by split].
  destruct (truthy raw) eqn:Ht; simpl.
  - destruct (ill_formed raw) eqn:Hi.
    + split; [discriminate|]. intros [_ H]. by rewrite (H raw) in Hi.
    + split; [|done]. intros _. split; [done|]. by intros ? [= <-].
  - split; [|done]. intros _. split; [done|]. intros ? [= <-]. congruence.
Qed.

Lemma call_update_settings_returns self kw errs self' :
  call_update_settings self kw = (Returns errs, self')
  <-> raised_by kw = None /\ update_settings self kw = (errs, self').
Proof.
  unfold call_update_settings. destruct (raised_by kw) as [exc|].
  { split; [discriminate|]. by intros [? _]. }
  destruct (update_settings self kw) as [errs0 self0]. split.
  - by intros [= <- <-].
  - by intros [_ [= <- <-]].
Qed.

(** A call that raises has done nothing to the reader. *)
Lemma call_update_settings_raised self kw exc self' :
  call_update_settings self kw = (Raised exc, self') ->
  raised_by kw = Some exc /\ self' = self.
Proof.
  unfold call_update_settings. destruct (raised_by kw) as [exc0|].
  - by intros [= <- <-].
  - by destruct (update_settings self kw).
Qed.

(** X1: keywords other than [self] and the five recognised ones are
    ignored: adding such a keyword to a call, with any value, or removing
    it, changes nothing of what the call does (what it returns or raises,
    and the reader it leaves). *)
Theorem call_update_settings_ignores_other_keys self kw (k v : string) :
  ~ In k ("self" :: recognised_keys) ->
  call_update_settings self (<[k := v]> kw) = call_update_settings self kw
  /\ call_update_settings self (delete k kw) = call_update_settings self kw.
Proof.
  intros H.
  assert (k <> "self") as Hself by (intros ->; apply H; by left).
  assert (k <> "port") as Hport.
  { intros ->. apply H. right. by left. }
  assert (~ In k recognised_keys) as Hk by (intros ?; apply H; by right).
  destruct (update_settings_other_keys self kw k v Hk) as [Hi Hd].
  unfold call_update_settings, raised_by.
  rewrite !lookup_insert_ne, !lookup_delete_ne by done.
  by rewrite Hi, Hd.
Qed.

(** X6: what a call does to one field depends only on what it supplies
    for that field: two calls that return and that agree on a field's key
    report the same under that key and leave the same value in that
    field, whatever else they supply. *)
Theorem call_update_settings_field_by_field self kw1 kw2 fld
    errs1 self1 errs2 self2 :
  kw1 !! key fld = kw2 !! key fld ->
  call_update_settings self kw1 = (Returns errs1, self1) ->
  call_update_settings self kw2 = (Returns errs2, self2) ->
  errs1 !! key fld = errs2 !! key fld
  /\ get_settings self1 !! key fld = get_settings self2 !! key fld.
Proof.
  intros H H1 H2.
  apply call_update_settings_returns in H1 as [_ H1].
  apply call_update_settings_returns in H2 as [_ H2].
  pose proof (update_settings_one_field self kw1 kw2 fld H) as Hf.
  by rewrite H1, H2 in Hf.
Qed.

(** X9: a call that returns may be split.  For two mappings with no key
    in common, one call with both returns exactly when the call with the
    first returns and, on the reader it leaves, the call with the second
    returns; the same reader results, and the errors of the one call are
    those of the two calls together. *)
Theorem call_update_settings_split self kw1 kw2 errs self' :
  kw1 ##ₘ kw2 ->
  call_update_settings self (kw1 ∪ kw2) = (Returns errs, self')
  <-> exists errs1 self1 errs2,
        call_update_settings self kw1 = (Returns errs1, self1)
        /\ call_update_settings self1 kw2 = (Returns errs2, self')
        /\ errs = errs1 ∪ errs2.
Proof.
  intros Hdisj.
  assert (Hl : forall k raw, kw1 !! k = Some raw ->
                 (kw1 ∪ kw2) !! k = Some raw /\ kw2 !! k = None).
  { intros k raw H. split; [by apply lookup_union_Some_l|].
    by apply (map_disjoint_Some_l kw1 kw2 k raw). }
  assert (Hr : forall k, kw1 !! k = None -> (kw1 ∪ kw2) !! k = kw2 !! k).
  { intros k H. by apply lookup_union_r. }
  assert (Hraise : raised_by (kw1 ∪ kw2) = None
                   <-> raised_by kw1 = None /\ raised_by kw2 = None).
  { rewrite !raised_by_None. split.
    - intros [Hs Hp]. split; split.
      + destruct (kw1 !! "self") as [v|] eqn:E; [|done].
        destruct (Hl _ _ E) as [E' _]. congruence.
      + intros raw E. destruct (Hl _ _ E) as [E' _]. by apply Hp.
      + destruct (kw1 !! "self") as [v|] eqn:E.
        * by destruct (Hl _ _ E) as [_ ->].
        * by rewrite <- (Hr _ E).
      + intros raw E. apply Hp.
        destruct (kw1 !! "port") as [raw1|] eqn:E1.
        * destruct (Hl _ _ E1) as [_ E2]. congruence.
        * by rewrite (Hr _ E1).
    - intros [[Hs1 Hp1] [Hs2 Hp2]]. split.
      + by rewrite (Hr _ Hs1).
      + intros raw E. destruct (kw1 !! "port") as [raw1|] eqn:E1.
        * destruct (Hl _ _ E1) as [E' _]. rewrite E' in E.
          injection E as <-. by apply Hp1.
        * rewrite (Hr _ E1) in E. by apply Hp2. }
  pose proof (update_settings_union self kw1 kw2 Hdisj) as Hu.
  rewrite call_update_settings_returns, Hraise. split.
  - intros [[Hn1 Hn2] H].
    exists (update_settings self kw1).1, (update_settings self kw1).2,
      (update_settings (update_settings self kw1).2 kw2).1.
    rewrite Hu in H. injection H as <- <-.
    rewrite !call_update_settings_returns.
    split; [split; [done|by destruct (update_settings self kw1)]|].
    split; [|done]. split; [done|].
    by destruct (update_settings (update_settings self kw1).2 kw2).
  - intros (errs1 & self1 & errs2 & H1 & H2 & ->).
    apply call_update_settings_returns in H1 as [Hn1 H1].
    apply call_update_settings_returns in H2 as [Hn2 H2].
    split; [done|]. rewrite Hu, H1. simpl. by rewrite H2.
Qed.

End ConfigurationStoreCalls.

(** * Further properties of the scale transaction engine *)

Local Arguments bytes_eqb : simpl never.
Local Arguments N.ltb : simpl never.

Lemma bytes_eqb_true (a b : list byte) : bytes_eqb a b = true -> a = b.
Proof.
  revert b. induction a as [|x a IH]; intros [|y b]; simpl;
    try discriminate; [reflexivity|].
  unfold bytes_eqb; fold bytes_eqb.
  intros H. apply andb_true_iff in H as [Hx Hab].
  apply Byte.byte_dec_bl in Hx as ->. by rewrite (IH b Hab).
Qed.

Lemma append_assoc (a b c : string) : (a +:+ b) +:+ c = a +:+ (b +:+ c).
Proof.
  induction a as [|x a IH]; [reflexivity|].
  change (String x ((a +:+ b) +:+ c) = String x (a +:+ b +:+ c)).
  by rewrite IH.
Qed.

Lemma string_of_list_byte_app (a b : list byte) :
  String.string_of_list_byte (a ++ b)
  = String.string_of_list_byte a +:+ String.string_of_list_byte b.
Proof.
  induction a as [|x a IH]; [reflexivity|].
  change (String (Ascii.ascii_of_byte x) (String.string_of_list_byte (a ++ b))
          = String (Ascii.ascii_of_byte x)
              (String.string_of_list_byte a +:+ String.string_of_list_byte b)).
  by rewrite IH.
Qed.

Lemma reads_app (a b : list event) : reads (a ++ b) = reads a ++ reads b.
Proof.
  induction a as [|e a IH]; simpl; [reflexivity|].
  destruct e; simpl; by rewrite IH.
Qed.

Lemma reads_map (bs : list byte) : reads (map EvRead bs) = bs.
Proof. induction bs as [|b bs IH]; simpl; [reflexivity|]. by rewrite IH. Qed.

Lemma sleeps_map (bs : list byte) : sleeps (map EvRead bs) = O.
Proof. induction bs as [|b bs IH]; simpl; [reflexivity|]. exact IH. Qed.

Lemma port_events_app (a b : list event) :
  port_events (a ++ b) = port_events a ++ port_events b.
Proof.
  induction a as [|e a IH]; simpl; [reflexivity|].
  destruct e; simpl; by rewrite IH.
Qed.

Lemma port_events_io (evs : list event) :
  forallb is_io evs = true -> port_events evs = [].
Proof.
  induction evs as [|e evs IH]; simpl; [reflexivity|].
  destruct e; simpl; try discriminate; exact IH.
Qed.

(** The loop neither opens nor closes the port. *)
Lemma poll_trace_port_events interval mx w tr :
  poll_trace interval mx w tr -> port_events tr = [].
Proof.
  induction 1 as [w Hlt|w io Hlt Hio|w io tr Hlt Hio Htr IH]; simpl.
  - reflexivity.
  - by apply port_events_io.
  - by rewrite port_events_app, (port_events_io _ Hio), IH.
Qed.

(** What the inner loop has read when it is done, and what it has made
    of it. *)
Lemma drain_reads m (items : list rx) (out : string) :
  match (drain m items out).1 with
  | Exhausted out' =>
      forallb (text_byte m) (reads (drain m items out).2) = true
      /\ out' = out +:+ String.string_of_list_byte
                          (reads (drain m items out).2)
  | Stopped (ExitWeight s) _ =>
      exists text b,
        reads (drain m items out).2 = text ++ [b]
        /\ m = [b]
        /\ forallb (text_byte m) text = true
        /\ s = out +:+ String.string_of_list_byte text
  | _ => True
  end.
Proof.
  revert out. induction items as [|it items IH]; intros out.
  - simpl. by rewrite append_empty.
  - destruct it as [b|msg]; [|done].
    rewrite drain_byte.
    destruct (bytes_eqb [b] m) eqn:Hm.
    + cbn [fst snd]. exists [], b. apply bytes_eqb_true in Hm.
      by rewrite append_empty.
    + unfold decode_utf8.
      destruct (Byte.to_N b <? 128)%N eqn:Hlt; cbn [fst snd]; [|done].
      specialize (IH (out +:+ String (Ascii.ascii_of_byte b) EmptyString)).
      destruct (drain m items _).1 as [out'|[s| | |] unread]; try done.
      * destruct IH as [Ht ->]. split.
        -- simpl. unfold text_byte at 1. by rewrite Hm, Hlt.
        -- cbn [reads]. by rewrite append_snoc.
      * destruct IH as (text & b' & Hr & -> & Ht & ->).
        exists (b :: text), b'. cbn [reads]. rewrite Hr.
        split; [done|]. split; [done|]. split.
        -- simpl. unfold text_byte at 1. by rewrite Hm, Hlt.
        -- by rewrite append_snoc.
Qed.

(** What the loop has read when it returns a weight. *)
Lemma poll_weight fuel : forall self script out r s,
  poll fuel self script out = Some r ->
  run_exit r = ExitWeight s ->
  exists text m,
    end_of_weight_char self = [m]
    /\ reads (run_trace r) = text ++ [m]
    /\ forallb (text_byte [m]) text = true
    /\ s = out +:+ String.string_of_list_byte text.
Proof.
  induction fuel as [|fuel IH]; intros self script out r s H Hs;
    [discriminate|].
  rewrite poll_S in H.
  destruct (_ <? _)%float; [by injection H as <-|].
  destruct (next_poll script) as [[items|msg] script'];
    [|by injection H as <-].
  pose proof (drain_reads (end_of_weight_char self) items out) as Hd.
  destruct (drain (end_of_weight_char self) items out).1 as [out'|e unread].
  - destruct (poll fuel _ script' out') as [r'|] eqn:Hp; [|discriminate].
    injection H as <-. simpl in Hs.
    destruct (IH _ _ _ _ _ Hp Hs) as (text & m & Hm & Hr & Ht & ->).
    destruct Hd as [Ht0 ->]. simpl in Hm.
    exists (reads (drain (end_of_weight_char self) items out).2 ++ text), m.
    split; [done|]. cbn [run_trace reads]. rewrite reads_app, Hr.
    split; [by rewrite app_assoc|]. split.
    + rewrite forallb_app, Ht, <- Hm, Ht0. reflexivity.
    + by rewrite string_of_list_byte_app, append_assoc.
  - injection H as <-. simpl in Hs. subst e.
    destruct Hd as (text & b & Hr & Hm & Ht & ->).
    exists text, b. cbn [run_trace reads]. rewrite Hr, <- Hm. done.
Qed.

(** Text that arrives over several poll intervals is kept until the
    marker arrives. *)
Lemma poll_accumulates (m : byte) (chunks : list (list byte))
    (last : list byte) (rest : list rx) later :
  forall fuel self out,
  end_of_weight_char self = [m] ->
  forallb (text_byte [m]) (concat chunks ++ last) = true ->
  (forall j, (j <= length chunks)%nat ->
     (max_wait_time_seconds self
      <? elapsed (wait_interval_seconds self) j (wait_time self))%float
     = false) ->
  exists tr,
    poll (S (length chunks) + fuel) self
      (arrivals chunks ++ Arrive (map RxByte last ++ RxByte m :: rest) :: later)
      out
    = Some {| run_exit :=
                ExitWeight
                  (out +:+ String.string_of_list_byte (concat chunks ++ last));
              run_self :=
                set_wait_time
                  (elapsed (wait_interval_seconds self) (S (length chunks))
                     (wait_time self)) self;
              run_trace := tr;
              run_unread := rest |}
    /\ sleeps tr = S (length chunks)
    /\ reads tr = concat chunks ++ last ++ [m].
Proof.
  induction chunks as [|chunk chunks IH]; intros fuel self out Hm Htext Hbelow.
  - change (S (length (@nil (list byte))) + fuel)%nat with (S fuel).
    change (concat [] ++ last) with last in *.
    cbn [arrivals map app length]. rewrite poll_S.
    assert (H0 := Hbelow O ltac:(simpl; lia)). simpl in H0. rewrite H0.
    cbn [next_poll]. rewrite Hm, (drain_text _ _ _ _ Htext), drain_byte,
      bytes_eqb_refl. cbn [fst snd].
    eexists. split; [reflexivity|]. split.
    + simpl. by rewrite sleeps_app, sleeps_map.
    + simpl. by rewrite reads_app, reads_map.
  - change (concat (chunk :: chunks) ++ last)
      with ((chunk ++ concat chunks) ++ last) in *.
    rewrite <- app_assoc in *.
    rewrite forallb_app in Htext. apply andb_true_iff in Htext as [Hc Ht].
    change (S (length (chunk :: chunks)) + fuel)%nat
      with (S (S (length chunks) + fuel)).
    rewrite poll_S.
    assert (H0 := Hbelow O ltac:(simpl; lia)). simpl in H0. rewrite H0.
    cbn [arrivals map app next_poll]. rewrite Hm.
    rewrite <- (app_nil_r (map RxByte chunk)), (drain_text _ _ _ _ Hc).
    cbn [drain fst snd]. rewrite app_nil_r.
    destruct (IH fuel
                (set_wait_time
                   (wait_time self + wait_interval_seconds self)%float self)
                (out +:+ String.string_of_list_byte chunk) Hm Ht)
      as (tr & Hp & Hsl & Hrd).
    { intros j Hj. apply (Hbelow (S j)). simpl. lia. }
    exists (EvCheck (wait_time self) :: EvSleep (wait_interval_seconds self)
              :: map EvRead chunk ++ tr).
    fold (arrivals chunks). rewrite Hp. cbn [run_exit run_self run_trace
      run_unread].
    split.
    + rewrite (string_of_list_byte_app chunk), append_assoc. reflexivity.
    + split.
      * simpl. by rewrite sleeps_app, sleeps_map, Hsl.
      * simpl. by rewrite reads_app, reads_map, Hrd, <- app_assoc.
Qed.

(** X10: the port is released on every way out.  A call whose port does
    not open never opens or closes it; every other finished call opens
    the port first, closes it last, and neither opens nor closes it in
    between, whether it returns a weight, the timeout message or an error
    string, or raises. *)
Theorem read_weight_releases_port fuel self scale r :
  read_weight fuel self scale = Some r ->
  match open_fault scale with
  | Some _ => port_events (run_trace r) = []
  | None =>
      exists mid,
        run_trace r = EvOpen :: mid ++ [EvClose] /\ port_events mid = []
  end.
Proof.
  intros H. unfold read_weight in H.
  destruct (open_fault scale) as [omsg|]; [by injection H as <-|].
  destruct (write_fault scale) as [wmsg|].
  { injection H as <-. by exists [EvFault wmsg]. }
  destruct (poll fuel self (script scale) EmptyString) as [r'|] eqn:Hp;
    [|discriminate].
  injection H as <-. simpl.
  destruct (poll_structure _ _ _ _ _ Hp) as (Htr & _).
  exists (EvWrite (read_weight_command self) :: run_trace r').
  split; [reflexivity|]. simpl.
  by apply poll_trace_port_events in Htr.
Qed.

(** X11: a reading may arrive in pieces.  When text arrives over several
    poll intervals and the marker in a later one, and the accumulator
    stays within the maximum at each check up to then, the call returns
    all the text in order of arrival, having slept once per interval and
    read every byte up to the marker; what follows the marker stays
    unread. *)
Theorem read_weight_accumulates_across_polls fuel self scale (m : byte)
    (chunks : list (list byte)) (last : list byte) (rest : list rx) later :
  end_of_weight_char self = [m] ->
  open_fault scale = None ->
  write_fault scale = None ->
  script scale
  = arrivals chunks ++ Arrive (map RxByte last ++ RxByte m :: rest) :: later ->
  forallb (text_byte [m]) (concat chunks ++ last) = true ->
  (forall j, (j <= length chunks)%nat ->
     (max_wait_time_seconds self
      <? elapsed (wait_interval_seconds self) j (wait_time self))%float
     = false) ->
  exists tr,
    read_weight (S (length chunks) + fuel) self scale
    = Some {| run_exit :=
                ExitWeight (String.string_of_list_byte (concat chunks ++ last));
              run_self :=
                set_wait_time
                  (elapsed (wait_interval_seconds self) (S (length chunks))
                     (wait_time self)) self;
              run_trace := tr;
              run_unread := rest |}
    /\ sleeps tr = S (length chunks)
    /\ reads tr = concat chunks ++ last ++ [m].
Proof.
  intros Hm Hopen Hwrite Hscript Htext Hbelow.
  destruct (poll_accumulates m chunks last rest later fuel self EmptyString
              Hm Htext Hbelow) as (tr & Hp & Hsl & Hrd).
  unfold read_weight. rewrite Hopen, Hwrite, Hscript, Hp.
  cbn [run_exit run_self run_trace run_unread String.append].
  eexists. split; [reflexivity|]. split.
  - simpl. rewrite sleeps_app, Hsl. simpl. lia.
  - simpl. rewrite reads_app, Hrd. simpl. by rewrite app_nil_r.
Qed.

(** X12: a weight that [read_weight] returns is exactly what it read
    before the marker.  In any call that returns a weight the marker is
    one byte, it is the last byte read, every byte read before it is
    below [0x80] and differs from the marker, and the weight is those
    bytes decoded; so no weight contains the marker. *)
Theorem read_weight_weight_is_what_was_read fuel self scale r (s : string) :
  read_weight fuel self scale = Some r ->
  run_exit r = ExitWeight s ->
  exists text m,
    end_of_weight_char self = [m]
    /\ reads (run_trace r) = text ++ [m]
    /\ forallb (text_byte [m]) text = true
    /\ s = String.string_of_list_byte text.
Proof.
  intros H Hs. unfold read_weight in H.
  destruct (open_fault scale) as [omsg|];
    [injection H as <-; discriminate|].
  destruct (write_fault scale) as [wmsg|];
    [injection H as <-; discriminate|].
  destruct (poll fuel self (script scale) EmptyString) as [r'|] eqn:Hp;
    [|discriminate].
  injection H as <-. simpl in Hs.
  destruct (poll_weight _ _ _ _ _ _ Hp Hs) as (text & m & Hm & Hr & Ht & ->).
  exists text, m. split; [done|]. split; [|done].
  simpl. rewrite reads_app, Hr. simpl. by rewrite app_nil_r.
Qed.

(** The loop finishes once the accumulator is above the maximum. *)
Lemma poll_within_budget n : forall self script out,
  (max_wait_time_seconds self
   <? elapsed (wait_interval_seconds self) n (wait_time self))%float = true ->
  exists r,
    poll (S n) self script out = Some r /\ (sleeps (run_trace r) <= n)%nat.
Proof.
  induction n as [|n IH]; intros self script out Habove; rewrite poll_S.
  - simpl in Habove. rewrite Habove. eexists. split; [reflexivity|]. simpl. lia.
  - destruct (max_wait_time_seconds self <? wait_time self)%float eqn:Hlt.
    { eexists. split; [reflexivity|]. simpl. lia. }
    destruct (next_poll script) as [[items|msg] script'].
    2:{ eexists. split; [reflexivity|]. simpl. lia. }
    destruct (drain_outcome (end_of_weight_char self) items out) as [Hio _].
    destruct (drain (end_of_weight_char self) items out).1 as [out'|e unread].
    + destruct (IH (set_wait_time
                      (wait_time self + wait_interval_seconds self)%float self)
                  script' out' Habove) as (r' & -> & Hle).
      eexists. split; [reflexivity|].
      simpl. rewrite sleeps_app, (sleeps_io _ Hio). simpl. lia.
    + eexists. split; [reflexivity|].
      simpl. rewrite (sleeps_io _ Hio). lia.
Qed.

(** X13: the maximum wait bounds every call.  If [n] intervals added to
    the accumulator take it above the maximum, then whatever the scale
    does, the call finishes within [n + 1] iterations of the loop, having
    slept at most [n] times. *)
Theorem read_weight_returns_within_budget n fuel self scale :
  (max_wait_time_seconds self
   <? elapsed (wait_interval_seconds self) n (wait_time self))%float = true ->
  (n < fuel)%nat ->
  exists r,
    read_weight fuel self scale = Some r /\ (sleeps (run_trace r) <= n)%nat.
Proof.
  intros Habove Hfuel. unfold read_weight.
  destruct (open_fault scale) as [omsg|].
  { eexists. split; [reflexivity|]. simpl. lia. }
  destruct (write_fault scale) as [wmsg|].
  { eexists. split; [reflexivity|]. simpl. lia. }
  destruct (poll_within_budget n self (script scale) EmptyString Habove)
    as (r & Hp & Hle).
  rewrite (poll_fuel_mono (S n) fuel _ _ _ _ ltac:(lia) Hp).
  eexists. split; [reflexivity|].
  simpl. rewrite sleeps_app. simpl. lia.
Qed.

Lemma set_wait_time_same self : set_wait_time (wait_time self) self = self.
Proof. by destruct self. Qed.

(** One answered call. *)
Lemma read_weight_answering self (m : byte) (text : list byte) :
  end_of_weight_char self = [m] ->
  forallb (text_byte [m]) text = true ->
  (max_wait_time_seconds self <? wait_time self)%float = false ->
  exists tr,
    read_weight 1 self (answering (text ++ [m]))
    = Some {| run_exit := ExitWeight (String.string_of_list_byte text);
              run_self :=
                set_wait_time
                  (wait_time self + wait_interval_seconds self)%float self;
              run_trace := tr;
              run_unread := [] |}.
Proof.
  intros Hm Ht Hlt.
  destruct (poll_accumulates m [] text [] [] O self EmptyString Hm Ht)
    as (tr & Hp & _).
  { intros j Hj. simpl in Hj. by replace j with O by lia. }
  unfold read_weight, answering. cbn [open_fault write_fault script].
  rewrite map_app. cbn [map].
  change (S (length (@nil (list byte))) + 0)%nat with 1%nat in Hp.
  cbn [arrivals map app] in Hp. rewrite Hp. by eexists.
Qed.

(** Answered calls in a row, followed by other calls. *)
Lemma read_weights_answered_then (m : byte) (texts : list (list byte)) tail :
  forall self,
  end_of_weight_char self = [m] ->
  Forall (fun text => forallb (text_byte [m]) text = true) texts ->
  (forall j, (j < length texts)%nat ->
     (max_wait_time_seconds self
      <? elapsed (wait_interval_seconds self) j (wait_time self))%float
     = false) ->
  read_weights 1 self
    (map (fun text => answering (text ++ [m])) texts ++ tail)
  = match
      read_weights 1
        (set_wait_time
           (elapsed (wait_interval_seconds self) (length texts)
              (wait_time self)) self) tail
    with
    | Some (rs, self') =>
        Some (map (fun text => Return (String.string_of_list_byte text)) texts
                ++ rs, self')
    | None => None
    end.
Proof.
  induction texts as [|text texts IH]; intros self Hm Hall Hbelow.
  - simpl. rewrite set_wait_time_same.
    by destruct (read_weights 1 self tail) as [[rs self']|].
  - apply Forall_cons in Hall as [Ht Hall].
    assert (H0 := Hbelow O ltac:(simpl; lia)). simpl in H0.
    destruct (read_weight_answering self m text Hm Ht H0) as (tr & Hr).
    cbn [map app read_weights]. rewrite Hr. cbn [run_self run_exit].
    rewrite (IH (set_wait_time
                   (wait_time self + wait_interval_seconds self)%float self)
               Hm Hall).
    2:{ intros j Hj. apply (Hbelow (S j)). simpl. lia. }
    cbn [length elapsed wait_time wait_interval_seconds set_wait_time].
    by destruct (read_weights 1 _ tail) as [[rs self']|].
Qed.

(** X14: the timeout budget is shared by successive calls.  As long as
    the accumulator is within the maximum when a call starts, a scale
    that answers within the first poll interval gets its answer returned,
    and each such call adds one interval to the accumulator; once that
    has taken the accumulator above the maximum, the next call returns
    the timeout message whatever the scale sends, and resets the
    accumulator. *)
Theorem read_weights_share_the_budget self (m : byte)
    (texts : list (list byte)) :
  end_of_weight_char self = [m] ->
  Forall (fun text => forallb (text_byte [m]) text = true) texts ->
  (forall j, (j < length texts)%nat ->
     (max_wait_time_seconds self
      <? elapsed (wait_interval_seconds self) j (wait_time self))%float
     = false) ->
  read_weights 1 self (map (fun text => answering (text ++ [m])) texts)
  = Some (map (fun text => Return (String.string_of_list_byte text)) texts,
          set_wait_time
            (elapsed (wait_interval_seconds self) (length texts)
               (wait_time self)) self)
  /\ ((max_wait_time_seconds self
       <? elapsed (wait_interval_seconds self) (length texts)
            (wait_time self))%float = true ->
      forall scale,
        open_fault scale = None ->
        write_fault scale = None ->
        read_weights 1 self
          (map (fun text => answering (text ++ [m])) texts ++ [scale])
        = Some (map (fun text => Return (String.string_of_list_byte text))
                  texts ++ [Return TIMEOUT_MESSAGE],
                set_wait_time 0%float self)).
Proof.
  intros Hm Hall Hbelow. split.
  - rewrite <- (app_nil_r (map _ texts)).
    rewrite (read_weights_answered_then m texts [] self Hm Hall Hbelow).
    simpl. by rewrite !app_nil_r.
  - intros Habove scale Hopen Hwrite.
    rewrite (read_weights_answered_then m texts [scale] self Hm Hall Hbelow).
    cbn [read_weights]. unfold read_weight. rewrite Hopen, Hwrite, poll_S.
    cbn [max_wait_time_seconds wait_time set_wait_time]. rewrite Habove.
    reflexivity.
Qed.

(** * Properties of the HTTP layer *)

Lemma read_weight_rest fuel self scale r :
  read_weight fuel self scale = Some r ->
  run_self r = set_wait_time (wait_time (run_self r)) self.
Proof.
  unfold read_weight.
  destruct (open_fault scale); [intros [= <-]; by destruct self|].
  destruct (write_fault scale); [intros [= <-]; by destruct self|].
  destruct (poll fuel self (script scale) EmptyString) as [r'|] eqn:Hp;
    [|discriminate].
  intros [= <-]. by destruct (poll_structure _ _ _ _ _ Hp) as (_ & ? & _).
Qed.

Section ApplicationFacts.

Context {rt : Runtime} {enc : JsonEncoder}.

Lemma update_settings_keeps_valid self kw :
  valid_settings (serial_reader self) ->
  valid_settings (serial_reader (update_settings self kw).2).
Proof.
  intros Hv.
  assert (maintained self kw (update_settings self kw).2) as [H _].
  { unfold update_settings.
    apply update_byte_size_maintains, update_stop_bits_maintains,
      update_parity_maintains, update_baud_rate_maintains,
      update_port_maintains.
    unfold maintained; simpl. split_and!; [done | by left | by left |].
    by destruct self. }
  exact H.
Qed.

(** What every view keeps of the reader. *)
Lemma serve_keeps fuel self c res self' :
  serve fuel self c = Some (res, self') ->
  valid_settings (serial_reader self) /\ protocol_defaults self ->
  valid_settings (serial_reader self') /\ protocol_defaults self'.
Proof.
  intros H [Hv Hp]. destruct c as [|request| |scale]; simpl in H.
  - by injection H as _ <-.
  - unfold App.update_settings, call_update_and_get_settings,
      call_update_settings in H.
    destruct (raised_by _); [by injection H as _ <-|].
    pose proof (update_settings_keeps_valid self
                  (if String.eqb (method request) "POST" then form request
                   else args request) Hv) as Hv'.
    pose proof (update_settings_rest self
                  (if String.eqb (method request) "POST" then form request
                   else args request)) as Hrest.
    destruct (update_settings self _) as [errs self1]. simpl in *.
    injection H as _ <-. split; [exact Hv'|].
    rewrite Hrest. exact Hp.
  - by injection H as _ <-.
  - unfold App.read in H.
    destruct (read_weight fuel self scale) as [r|] eqn:Hr; [|discriminate].
    injection H as _ <-. apply read_weight_rest in Hr. rewrite Hr.
    by split.
Qed.

(** X15: whatever requests the application serves, and with whatever
    port argument it was started, its reader keeps parity, stop bits and
    byte size within their enumerated sets and keeps the protocol
    constants it was created with (poll interval 0.25, maximum wait 1.5,
    command [W] and carriage return, marker [0x03]); every request that
    is served gets exactly one answer. *)
Theorem app_keeps_reader_sound fuel (argv : list string) (calls : list call)
    ress self' :
  serve_all fuel (App.scale_reader argv) calls = Some (ress, self') ->
  valid_settings (serial_reader self')
  /\ protocol_defaults self'
  /\ length ress = length calls.
Proof.
  assert (Hinit : valid_settings (serial_reader (App.scale_reader argv))
                  /\ protocol_defaults (App.scale_reader argv)).
  { unfold App.scale_reader.
    destruct argv as [|? [|port_arg ?]]; (split; [cbv; tauto|by cbv]). }
  revert Hinit. generalize (App.scale_reader argv) as self.
  revert ress. induction calls as [|c calls IH]; intros ress self Hinv H.
  - injection H as <- <-. tauto.
  - simpl in H.
    destruct (serve fuel self c) as [[res self1]|] eqn:Hc; [|discriminate].
    destruct (serve_all fuel self1 calls) as [[ress1 self2]|] eqn:Hcs;
      [|discriminate].
    injection H as <- <-.
    destruct (IH ress1 self1 (serve_keeps _ _ _ _ _ Hc Hinv) Hcs)
      as (Hv & Hp & Hlen).
    simpl. by rewrite Hlen.
Qed.

(** X17: the settings change only through [/update_settings].  After any
    sequence of requests to the other views ([/], [/get_settings],
    [/read], whatever the scale does) the port attributes of the reader,
    and so the answer of [/get_settings], are what they were before. *)
Theorem app_settings_change_only_by_update fuel self (calls : list call)
    ress self' :
  forallb not_an_update calls = true ->
  serve_all fuel self calls = Some (ress, self') ->
  serial_reader self' = serial_reader self
  /\ App.get_settings self' = App.get_settings self.
Proof.
  intros Hcalls H.
  assert (serial_reader self' = serial_reader self) as Hsr.
  { revert ress self H. induction calls as [|c calls IH]; intros ress self H.
    - by injection H as _ <-.
    - simpl in Hcalls. apply andb_true_iff in Hcalls as [Hc Hcalls].
      simpl in H.
      destruct (serve fuel self c) as [[res self1]|] eqn:Hs; [|discriminate].
      destruct (serve_all fuel self1 calls) as [[ress1 self2]|] eqn:Hcs;
        [|discriminate].
      injection H as _ <-. rewrite (IH Hcalls _ _ Hcs).
      destruct c as [|request| |scale]; simpl in Hs; try discriminate.
      + by injection Hs as _ <-.
      + by injection Hs as _ <-.
      + unfold App.read in Hs.
        destruct (read_weight fuel self scale) as [r|] eqn:Hr;
          [|discriminate].
        injection Hs as _ <-. apply read_weight_rest in Hr. by rewrite Hr. }
  split; [exact Hsr|].
  unfold App.get_settings, get_settings. by rewrite Hsr.
Qed.

End ApplicationFacts.

(** ** Further properties on concrete calls *)


Lemma update_settings_rejects_stored_parity_witness :
  update_settings (rt := ascii_runtime) (default_reader "COM1")
    (<["parity" := "E"]> ∅)
  = (<["parity" :=
        {| given_value := PyStr "e";
           error := "Parity must be one of the following: 'none', 'odd', 'even', 'mark', 'space'" |}]>
       ∅,
     default_reader "COM1").
Proof.
  refine (update_settings_rejects_stored_parity (rt := ascii_runtime)
            (default_reader "COM1") (fun c _ => eq_refl) _).
  cbv [In default_reader init serial_reader parity]. tauto.
Defined.

Lemma call_update_settings_ignores_other_keys_witness :
  call_update_settings (rt := ascii_runtime) (default_reader "COM1")
    (<["timeout" := "5"]> accepted_kwargs)
  = call_update_settings (rt := ascii_runtime) (default_reader "COM1")
      accepted_kwargs.
Proof.
  refine (proj1 (call_update_settings_ignores_other_keys
                   (rt := ascii_runtime) (default_reader "COM1")
                   accepted_kwargs "timeout" "5" _)).
  cbv [In recognised_keys]. intros H.
  repeat (destruct H as [H|H]; [discriminate H|]). exact H.
Defined.

Lemma call_update_settings_field_by_field_witness :
  (update_settings_ascii (default_reader "COM1") accepted_kwargs).1
    !! "parity"
  = (update_settings_ascii (default_reader "COM1")
       (<["parity" := "Odd"]> rejected_kwargs)).1 !! "parity"
  /\ get_settings
       (update_settings_ascii (default_reader "COM1") accepted_kwargs).2
       !! "parity"
     = get_settings
         (update_settings_ascii (default_reader "COM1")
            (<["parity" := "Odd"]> rejected_kwargs)).2 !! "parity".
Proof.
  refine (call_update_settings_field_by_field (rt := ascii_runtime)
            (default_reader "COM1") accepted_kwargs
            (<["parity" := "Odd"]> rejected_kwargs) Parity _ _ _ _ _ _ _).
  - vm_compute. reflexivity.
  - vm_compute. reflexivity.
  - vm_compute. reflexivity.
Defined.

Lemma call_update_settings_split_witness :
  exists errs1 self1 errs2,
    call_update_settings (rt := ascii_runtime) (default_reader "COM1")
      (<["parity" := "Odd"]> ∅) = (Returns errs1, self1)
    /\ call_update_settings (rt := ascii_runtime) self1
         (<["byte_size" := "9"]> ∅)
       = (Returns errs2,
          (update_settings_ascii (default_reader "COM1")
             ((<["parity" := "Odd"]> ∅) ∪ (<["byte_size" := "9"]> ∅))).2)
    /\ (update_settings_ascii (default_reader "COM1")
          ((<["parity" := "Odd"]> ∅) ∪ (<["byte_size" := "9"]> ∅))).1
       = errs1 ∪ errs2.
Proof.
  refine (proj1 (call_update_settings_split (rt := ascii_runtime)
                   (default_reader "COM1")
                   (<["parity" := "Odd"]> ∅) (<["byte_size" := "9"]> ∅)
                   _ _ _) _).
  - apply map_disjoint_spec. intros k x y Hx Hy.
    destruct (decide (k = "parity")) as [->|Hne].
    + rewrite lookup_insert_ne in Hy by done. by rewrite lookup_empty in Hy.
    + rewrite lookup_insert_ne in Hx by done. by rewrite lookup_empty in Hx.
  - vm_compute. reflexivity.
Defined.

Lemma read_weight_releases_port_witness :
  exists mid,
    run_trace answered_run = EvOpen :: mid ++ [EvClose]
    /\ port_events mid = [].
Proof.
  exact (read_weight_releases_port 1 (default_reader "COM1") answer_123
           answered_run eq_refl).
Defined.

(** The scale sends ["12"], then ["3."], then ["4"], the marker and one
    more byte. *)
Definition answer_in_pieces : Scale :=
  {| open_fault := None;
     write_fault := None;
     script := [Arrive [RxByte x31; RxByte x32];
                Arrive [RxByte x33; RxByte x2e];
                Arrive [RxByte x34; RxByte x03; RxByte x35]] |}.

Lemma read_weight_accumulates_across_polls_witness :
  exists tr,
    read_weight 3 (default_reader "COM1") answer_in_pieces
    = Some {| run_exit := ExitWeight "123.4";
              run_self := set_wait_time 0.75%float (default_reader "COM1");
              run_trace := tr;
              run_unread := [RxByte x35] |}
    /\ sleeps tr = 3%nat
    /\ reads tr = [x31; x32; x33; x2e; x34; x03].
Proof.
  refine (read_weight_accumulates_across_polls 0 (default_reader "COM1")
            answer_in_pieces x03 [[x31; x32]; [x33; x2e]] [x34] [RxByte x35]
            [] eq_refl eq_refl eq_refl eq_refl eq_refl _).
  intros j Hj. destruct j as [|[|[|j]]]; [reflexivity..|simpl in Hj; lia].
Defined.

Lemma read_weight_weight_is_what_was_read_witness :
  exists text m,
    end_of_weight_char (default_reader "COM1") = [m]
    /\ reads (run_trace answered_run) = text ++ [m]
    /\ forallb (text_byte [m]) text = true
    /\ "123" = String.string_of_list_byte text.
Proof.
  exact (read_weight_weight_is_what_was_read 1 (default_reader "COM1")
           answer_123 answered_run "123" eq_refl eq_refl).
Defined.

Lemma read_weight_returns_within_budget_witness :
  exists r,
    read_weight 8 (default_reader "COM1") answer_utf8 = Some r
    /\ (sleeps (run_trace r) <= 7)%nat.
Proof.
  refine (read_weight_returns_within_budget 7 8 (default_reader "COM1")
            answer_utf8 eq_refl _).
  lia.
Defined.

Lemma read_weights_share_the_budget_witness :
  read_weights 1 (default_reader "COM1")
    (map (fun text => answering (text ++ [x03]))
       (List.repeat [x31; x32; x33] 7))
  = Some (map (fun text => Return (String.string_of_list_byte text))
            (List.repeat [x31; x32; x33] 7),
          set_wait_time 1.75%float (default_reader "COM1"))
  /\ ((1.5 <? 1.75)%float = true ->
      forall scale,
        open_fault scale = None ->
        write_fault scale = None ->
        read_weights 1 (default_reader "COM1")
          (map (fun text => answering (text ++ [x03]))
             (List.repeat [x31; x32; x33] 7) ++ [scale])
        = Some (map (fun text => Return (String.string_of_list_byte text))
                  (List.repeat [x31; x32; x33] 7)
                  ++ [Return TIMEOUT_MESSAGE],
                set_wait_time 0%float (default_reader "COM1"))).
Proof.
  refine (read_weights_share_the_budget (default_reader "COM1") x03
            (List.repeat [x31; x32; x33] 7) eq_refl _ _).
  - repeat constructor.
  - intros j Hj.
    destruct j as [|[|[|[|[|[|[|j]]]]]]]; [reflexivity..|simpl in Hj; lia].
Defined.

Lemma app_keeps_reader_sound_witness :
  valid_settings (serial_reader example_reader)
  /\ protocol_defaults example_reader
  /\ length [Responds "errors and settings"; Responds "123";
             Responds "settings"] = length example_calls.
Proof.
  refine (app_keeps_reader_sound (rt := ascii_runtime) (enc := tag_encoder)
            1 ["app.py"; "COM7"] example_calls
            [Responds "errors and settings"; Responds "123";
             Responds "settings"] example_reader _).
  vm_compute. reflexivity.
Defined.

Lemma app_settings_change_only_by_update_witness :
  serial_reader (set_wait_time 0.5%float example_reader)
  = serial_reader example_reader
  /\ App.get_settings (enc := tag_encoder)
       (set_wait_time 0.5%float example_reader)
     = App.get_settings (enc := tag_encoder) example_reader.
Proof.
  refine (app_settings_change_only_by_update (rt := ascii_runtime)
            (enc := tag_encoder) 1 example_reader
            [Read answer_123; GetSettings; GetIndex]
            [Responds "123"; Responds "settings"; Responds App.index]
            (set_wait_time 0.5%float example_reader) eq_refl _).
  vm_compute. reflexivity.
Defined.
